(** * Accessibility crawler: spider, report formatter, report store, issue filing

    A shallow embedding of the JavaScript of the "Accessibility Report" note:
    the Cypress [spider], [formatViolationsToMarkdown], the report-saving
    callback ([safeName], [cy.writeFile]) and the GitHub issue loop.

    JavaScript strings are [string]; the module-level [visited] Set is a
    [gset string] threaded through the crawl; the browser, the axe engine, the
    DOM and the [gh] command line are oracles collected in the records [Site]
    and [Tracker].  A failed Cypress command or a thrown exception ends the run,
    as nothing in the source catches it.

    The front-matter script [add-metadata.cjs] is embedded too: the files are
    a [gmap] from path to content, the result of [globSync] and the date of
    the day are inputs. *)

From Stdlib Require Import ZArith String Ascii List.
From stdpp Require Import gmap strings list.

(** ** JavaScript string methods used by the source *)

Definition nl : string := String "010" EmptyString.

(** [s.startsWith(p)] *)
Definition startsWith (s p : string) : bool := String.prefix p s.

(** [s.includes(sub)] *)
Fixpoint includes (s sub : string) : bool :=
  String.prefix sub s ||
  match s with
  | EmptyString => false
  | String _ t => includes t sub
  end.

(** [s.replace(/c/g, d)] for a one-character pattern [c] *)
Fixpoint replaceAll (c d : ascii) (s : string) : string :=
  match s with
  | EmptyString => EmptyString
  | String a t => String (if Ascii.eqb a c then d else a) (replaceAll c d t)
  end.

(** [s.replace(/^c/, '')] *)
Definition stripLeading (c : ascii) (s : string) : string :=
  match s with
  | String a t => if Ascii.eqb a c then t else s
  | EmptyString => EmptyString
  end.

Fixpoint dropString (n : nat) (s : string) : string :=
  match n, s with
  | S n', String _ t => dropString n' t
  | _, _ => s
  end.

(** [s.replace(pat, rep)] with a string pattern: the first occurrence only *)
Fixpoint replaceFirst (pat rep s : string) : string :=
  if String.prefix pat s then rep +:+ dropString (String.length pat) s
  else match s with
       | EmptyString => EmptyString
       | String a t => String a (replaceFirst pat rep t)
       end.

(** [xs.join(sep)] *)
Fixpoint join (sep : string) (xs : list string) : string :=
  match xs with
  | [] => EmptyString
  | [x] => x
  | x :: tl => x +:+ sep +:+ join sep tl
  end.

(** [ [...new Set(xs)] ]: insertion keeps the first occurrence of each value *)
Definition JSSet_add (s : list string) (x : string) : list string :=
  if decide (x ∈ s) then s else s ++ [x].

Definition JSSet_from (s xs : list string) : list string := foldl JSSet_add s xs.

Definition JSSet_of (xs : list string) : list string := JSSet_from [] xs.

(** ** The crawler *)

(** What the world outside the script answers.  [new_URL href] is
    [new URL(href, Cypress.config().baseUrl).toString()], [None] when the
    constructor throws; [cy_visit url] says whether [cy.visit(url)] and
    [cy.injectAxe()] succeed; [cy_checkA11y url impacts] whether the audit
    passes; [cy_get url] is the [href] attribute ([None] for [null]) of every
    element matched by [a[href^="/"]] on the page, in document order, or [None]
    when the command fails. *)
Record Site := {
  new_URL : string -> option string;
  cy_visit : string -> bool;
  cy_checkA11y : string -> list string -> bool;
  cy_get : string -> option (list (option string))
}.

Inductive event :=
| Call (url : string) (depth : Z)
| Add (url : string)
| Visit (url : string)
| Audit (url : string).

Inductive error :=
| NavigationError (url : string)
| A11yError (url : string)
| GetError (url : string)
| InvalidURL (href : string).

Inductive outcome :=
| Done
| Threw (e : error)
| OutOfFuel.

Record state := { visited : gset string; log : list event }.

Definition init : state := {| visited := ∅; log := [] |}.

Definition emit (e : event) (st : state) : state :=
  {| visited := visited st; log := log st ++ [e] |}.

(** [visited.add(url)] *)
Definition visited_add (url : string) (st : state) : state :=
  {| visited := {[url]} ∪ visited st; log := log st ++ [Add url] |}.

Definition includedImpacts : list string := ["critical"; "serious"].

(** The part of the link filter that does not look at [visited]. *)
Definition static_ok (href : string) : bool :=
  negb (startsWith href "#") && negb (includes href "logout") &&
  negb (includes href "mailto:").

(** One evaluation of the filter callback; [&&] short-circuits, so [new URL]
    runs only for a href that passed the tests before it. *)
Definition keep_href (site : Site) (vis : gset string) (href : option string)
  : error + bool :=
  match href with
  | None => inr false
  | Some h =>
    if static_ok h then
      match new_URL site h with
      | None => inl (InvalidURL h)
      | Some a => inr (negb (bool_decide (a ∈ vis)))
      end
    else inr false
  end.

(** [.filter(href => ...)], from left to right, stopping at the first throw *)
Fixpoint filter_hrefs (site : Site) (vis : gset string)
    (hrefs : list (option string)) : error + list string :=
  match hrefs with
  | [] => inr []
  | h :: tl =>
    match keep_href site vis h with
    | inl e => inl e
    | inr b =>
      match filter_hrefs site vis tl with
      | inl e => inl e
      | inr r => inr (match h with Some s => if b then s :: r else r | None => r end)
      end
    end
  end.

(** [cy.wrap(hrefs).each(f)]: one element after the other, each one's commands
    run to their end before the next; a failure ends the loop. *)
Fixpoint each (f : string -> state -> state * outcome) (hrefs : list string)
    (st : state) : state * outcome :=
  match hrefs with
  | [] => (st, Done)
  | h :: tl =>
    match f h st with
    | (st', Done) => each f tl st'
    | r => r
    end
  end.

(** [spider(url, depth)].  [fuel] bounds the nesting of recursive calls. *)
Fixpoint spider (site : Site) (fuel : nat) (url : string) (depth : Z)
    (st : state) : state * outcome :=
  match fuel with
  | O => (st, OutOfFuel)
  | S fuel' =>
    let st := emit (Call url depth) st in
    if bool_decide (url ∈ visited st) || bool_decide (depth = 0%Z) then (st, Done)
    else
      let st := visited_add url st in
      let st := emit (Visit url) st in
      if negb (cy_visit site url) then (st, Threw (NavigationError url))
      else
        let st := emit (Audit url) st in
        if negb (cy_checkA11y site url includedImpacts)
        then (st, Threw (A11yError url))
        else
          match cy_get site url with
          | None => (st, Threw (GetError url))
          | Some anchors =>
            match filter_hrefs site (visited st) anchors with
            | inl e => (st, Threw e)
            | inr kept =>
              each (fun href st =>
                      match new_URL site href with
                      | None => (st, Threw (InvalidURL href))
                      | Some absolute => spider site fuel' absolute (depth - 1) st
                      end)
                   (JSSet_of kept) st
            end
          end
  end.

(** The test body: [spider(`${Cypress.config().baseUrl}/`, depth)]. *)
Definition crawl (site : Site) (fuel : nat) (baseUrl : string) (depth : Z)
  : state * outcome :=
  spider site fuel (baseUrl +:+ "/") depth init.

(** Projections of the log. *)
Definition audited (l : list event) : list string :=
  omap (fun e => match e with Audit u => Some u | _ => None end) l.

Definition navigated (l : list event) : list string :=
  omap (fun e => match e with Visit u => Some u | _ => None end) l.

Definition added (l : list event) : list string :=
  omap (fun e => match e with Add u => Some u | _ => None end) l.

Definition called (l : list event) : list string :=
  omap (fun e => match e with Call u _ => Some u | _ => None end) l.

(** One invocation of [spider] contributes one block of events: it returns at
    its guard, or it inserts the URL and navigates, or it goes on to audit. *)
Inductive step (site : Site) : state -> state -> Prop :=
| step_skip url depth st :
    step site st (emit (Call url depth) st)
| step_navigate url depth st :
    url ∉ visited st ->
    step site st (emit (Visit url) (visited_add url (emit (Call url depth) st)))
| step_audit url depth st :
    url ∉ visited st ->
    cy_visit site url = true ->
    step site st
      (emit (Audit url)
         (emit (Visit url) (visited_add url (emit (Call url depth) st)))).

(** The hrefs that pass the tests on the href text alone. *)
Definition static_list (anchors : list (option string)) : list string :=
  filter (fun h => static_ok h = true) (omap (fun a => a) anchors).

(** The last test of the filter: the page of the link is not in [visited]. *)
Definition unvisited (site : Site) (vis : gset string) (h : string) : bool :=
  match new_URL site h with
  | Some a => negb (bool_decide (a ∈ vis))
  | None => false
  end.

(** The links of a page that reach [new URL]. *)
Definition static_hrefs (site : Site) (url : string) : list string :=
  match cy_get site url with
  | Some anchors => static_list anchors
  | None => []
  end.

(** Every command on the page succeeds and every link that reaches [new URL]
    parses. *)
Definition page_ok (site : Site) (url : string) : Prop :=
  cy_visit site url = true /\
  cy_checkA11y site url includedImpacts = true /\
  is_Some (cy_get site url) /\
  forall h, h ∈ static_hrefs site url -> is_Some (new_URL site h).

(** The exception a page raises, when it raises one. *)
Definition cause (site : Site) (url : string) : option error :=
  if negb (cy_visit site url) then Some (NavigationError url)
  else if negb (cy_checkA11y site url includedImpacts) then Some (A11yError url)
  else match cy_get site url with
       | None => Some (GetError url)
       | Some anchors =>
         match filter_hrefs site ∅ anchors with
         | inl e => Some e
         | inr _ => None
         end
       end.

(** Depth-limited depth-first search in pre-order over the link graph:
    [seen] lists the pages reached so far, oldest first. *)
Fixpoint dfs (site : Site) (d : nat) (url : string) (seen : list string)
  : list string :=
  match d with
  | O => seen
  | S d' =>
    if decide (url ∈ seen) then seen
    else foldl (fun acc h =>
                  match new_URL site h with
                  | Some v => dfs site d' v acc
                  | None => acc
                  end)
               (seen ++ [url]) (static_hrefs site url)
  end.

(** The frontier of the specification: [dequeue] takes the oldest pending
    task, [enqueue] appends the links of the page at [depth - 1] and is a no-op
    below depth 0; a URL already visited is not audited again. *)
Definition enqueue (q : list (string * Z)) (url : string) (depth : Z)
  : list (string * Z) :=
  if bool_decide (depth < 0)%Z then q else q ++ [(url, depth)].

Fixpoint fifo_order (site : Site) (fuel : nat) (queue : list (string * Z))
    (seen : list string) : list string :=
  match fuel with
  | O => seen
  | S fuel' =>
    match queue with
    | [] => seen
    | (url, depth) :: q =>
      if decide (url ∈ seen) then fifo_order site fuel' q seen
      else fifo_order site fuel'
             (foldl (fun q v => enqueue q v (depth - 1)) q
                    (omap (new_URL site) (static_hrefs site url)))
             (seen ++ [url])
    end
  end.

(** ** Invariants of the crawl *)

(** What a step appends to the log. *)
Definition block (url : string) (depth : Z) (n : nat) : list event :=
  take n [Call url depth; Add url; Visit url; Audit url].

(** The crawl invariant: the insertions into [visited] are pairwise distinct
    and all in [visited]; every insertion is followed by the navigation; the
    audited pages are among the navigated ones. *)
Definition crawl_inv (site : Site) (st : state) : Prop :=
  (forall u, u ∈ audited (log st) -> cy_visit site u = true) /\
  NoDup (added (log st)) /\
  (forall u, u ∈ added (log st) -> u ∈ visited st) /\
  navigated (log st) = added (log st) /\
  sublist (audited (log st)) (navigated (log st)).

(** In a log built by steps, the page of every navigation and of every audit
    was inserted into [visited] at an earlier position. *)
Definition inserted_first (l : list event) : Prop :=
  forall i u, l !! i = Some (Visit u) \/ l !! i = Some (Audit u) ->
    exists j, j < i /\ l !! j = Some (Add u).

Definition pages_ok (site : Site) (l : list event) : Prop :=
  forall u, u ∈ navigated l -> page_ok site u.

(** The log of a run that threw ends at the page that raised the exception,
    and every page before it was sound. *)
Definition ends_at_failure (site : Site) (st : state) (e : error) : Prop :=
  exists u l,
    pages_ok site l /\ cause site u = Some e /\
    log st = l ++ (if cy_visit site u then [Visit u; Audit u] else [Visit u]).

Definition sound_outcome (site : Site) (st : state) (out : outcome) : Prop :=
  match out with
  | Threw e => ends_at_failure site st e
  | _ => pages_ok site (log st)
  end.

(** The pages a crawl can reach lie in [U]. *)
Definition closed_under_links (site : Site) (U : gset string) : Prop :=
  forall u h a,
    u ∈ U -> h ∈ static_hrefs site u -> new_URL site h = Some a -> a ∈ U.

(** ** Report formatting *)

Record node := { html : string }.

Record violation := {
  v_id : string;
  impact : string;
  description : string;
  help : string;
  helpUrl : string;
  nodes : list node
}.

Definition header (url : string) : string :=
  "## Accessibility Violations on `" +:+ url +:+ "`" +:+ nl +:+ nl.

Definition sentinel : string := "_No violations found._".

Definition formatNode (n : node) : string := "  - `" +:+ html n +:+ "`".

Definition formatViolation (v : violation) : string :=
  nl +:+ "### ❌ " +:+ v_id v +:+ nl +:+
  "- Impact: `" +:+ impact v +:+ "`" +:+ nl +:+
  "- Description: " +:+ description v +:+ nl +:+
  "- Help: [" +:+ help v +:+ "](" +:+ helpUrl v +:+ ")" +:+ nl +:+
  "- Affected Elements:" +:+ nl +:+
  join nl (map formatNode (nodes v)) +:+ nl +:+ "  ".

Definition formatViolationsToMarkdown (url : string) (violations : list violation)
  : string :=
  let header := header url in
  if bool_decide (length violations = 0) then header +:+ sentinel
  else header +:+ join nl (map formatViolation violations).

(** ** Report store *)

Definition safeName (url : string) : string :=
  if bool_decide (url = "/") then "home"
  else stripLeading "-" (replaceAll "/" "-" url).

Definition reportName (url : string) : string :=
  "a11y-" +:+ safeName url +:+ ".md".

(** The files written so far, as (path, content), oldest first. *)
Definition files := list (string * string).

(** [cy.writeFile(path, content)] replaces the content of an existing path. *)
Fixpoint writeFile (path content : string) (fs : files) : files :=
  match fs with
  | [] => [(path, content)]
  | (p, c) :: tl =>
    if bool_decide (p = path) then (p, content) :: tl
    else (p, c) :: writeFile path content tl
  end.

(** The [checkA11y] callback of the report-saving snippet. *)
Definition saveReport (url : string) (violations : list violation) (fs : files)
  : files :=
  let safeName := safeName url in
  let markdown := formatViolationsToMarkdown url violations in
  writeFile ("reports/a11y-" +:+ safeName +:+ ".md") markdown fs.

(** ** Issue filing *)

Definition reportsDir : string := "reports".

(** [fs.readdirSync(reportsDir)]: the names directly under the directory. *)
Definition readdirSync (dir : string) (fs : files) : list string :=
  omap (fun pc =>
          let p := fst pc in
          let prefix := dir +:+ "/" in
          let name := dropString (String.length prefix) p in
          if String.prefix prefix p && negb (includes name "/")
          then Some name else None) fs.

(** [fs.readFileSync(path.join(reportsDir, file), 'utf8')] *)
Definition readFileSync (dir file : string) (fs : files) : option string :=
  (fun r => snd (snd r)) <$> list_find (fun pc => fst pc = dir +:+ "/" +:+ file) fs.

Record issue := { title : string; body : string; labels : list string }.

(** The [gh] command line in front of the tracker: [gh_issue_list search open]
    is the output of [gh issue list --search ... --state open] ([None] when the
    command exits with an error), [gh_issue_create t b open] says whether
    [gh issue create] succeeds. *)
Record Tracker := {
  gh_issue_list : string -> list issue -> option string;
  gh_issue_create : string -> string -> list issue -> bool
}.

Inductive console :=
| AlreadyExists (page : string)
| Created (page : string)
| FailedToCreate (page : string).

Record tracker_state := { open_issues : list issue; console_log : list console }.

Definition issueTitle (file : string) : string :=
  "Accessibility issues on /" +:+ replaceFirst ".md" "" file.

(** The body of the [forEach] callback; [None] when an uncaught exception
    leaves it ([readFileSync] or the listing command). *)
Definition fileIssue (gh : Tracker) (fs : files) (file : string)
    (st : tracker_state) : option tracker_state :=
  let page := replaceFirst ".md" "" file in
  let title := "Accessibility issues on /" +:+ page in
  match readFileSync reportsDir file fs with
  | None => None
  | Some body =>
    match gh_issue_list gh title (open_issues st) with
    | None => None
    | Some existing =>
      if includes existing title then
        Some {| open_issues := open_issues st;
                console_log := console_log st ++ [AlreadyExists page] |}
      else if gh_issue_create gh title body (open_issues st) then
        Some {| open_issues :=
                  open_issues st ++
                  [{| title := title; body := body;
                      labels := ["accessibility"; "automated"] |}];
                console_log := console_log st ++ [Created page] |}
      else
        Some {| open_issues := open_issues st;
                console_log := console_log st ++ [FailedToCreate page] |}
    end
  end.

(** [forEach]: the state reached, and whether the loop ran to its end. *)
Fixpoint forEachFile (gh : Tracker) (fs : files) (names : list string)
    (st : tracker_state) : tracker_state * bool :=
  match names with
  | [] => (st, true)
  | file :: tl =>
    match fileIssue gh fs file st with
    | None => (st, false)
    | Some st' => forEachFile gh fs tl st'
    end
  end.

Definition fileIssues (gh : Tracker) (fs : files) (st : tracker_state)
  : tracker_state * bool :=
  forEachFile gh fs (readdirSync reportsDir fs) st.

(** ** Concrete sites and trackers for the examples *)

Definition localhost : string := "http://localhost:3000".

(** URL resolution on the hrefs the examples use: a path is appended to the
    origin; [//] has an empty host, which [new URL] rejects. *)
Definition localhost_URL (href : string) : option string :=
  if bool_decide (href = "//") then None
  else if startsWith href "/" then Some (localhost +:+ href)
  else Some (localhost +:+ "/" +:+ href).

(** A site given by the links of each page; a page outside the table has no
    element for [cy.get] to find. *)
Definition table_site (pages : list (string * list string))
    (unreachable failing : list string) : Site :=
  {| new_URL := localhost_URL;
     cy_visit := fun url => negb (bool_decide (url ∈ unreachable));
     cy_checkA11y := fun url _ => negb (bool_decide (url ∈ failing));
     cy_get := fun url =>
       (fun r => map Some (snd (snd r))) <$>
       list_find (fun p => localhost +:+ fst p = url) pages |}.

(** [/] links to [/about], which links only to [/about/team]. *)
Definition about_site : Site :=
  table_site [("/", ["/about"]); ("/about", ["/about/team"]); ("/about/team", ["/"])]
             [] [].

(** A site with a cycle and a page reached along two paths. *)
Definition cyclic_site : Site :=
  table_site [("/", ["/a"; "/b"; "/a"]); ("/a", ["/"; "/b"; "/c"]);
              ("/b", ["/a"; "/c"]); ("/c", ["/"; "#top"; "/logout"])]
             [] [].

(** Every page links back home; [/c] is reachable through [/a] only. *)
Definition tree_site : Site :=
  table_site [("/", ["/a"; "/b"]); ("/a", ["/"; "/c"]); ("/b", ["/"]); ("/c", ["/"])]
             [] [].

(** [/contact] cannot be loaded; [/pricing] does not pass the audit. *)
Definition flaky_site : Site :=
  table_site [("/", ["/contact"; "/about"]); ("/about", ["/"; "/pricing"]);
              ("/contact", ["/"]); ("/pricing", ["/"])]
             [localhost +:+ "/contact"] [localhost +:+ "/pricing"].

(** The home page carries one href that does not parse. *)
Definition malformed_site : Site :=
  table_site [("/", ["/about"; "//"; "/contact"]); ("/about", ["/"]);
              ("/contact", ["/"])]
             [] [].

(** A tracker whose listing prints the title of every open issue that contains
    the search text, one per line, and whose creation always succeeds. *)
Definition plain_tracker : Tracker :=
  {| gh_issue_list := fun search open =>
       Some (join nl (map title (filter (fun i => includes (title i) search = true) open)));
     gh_issue_create := fun _ _ _ => true |}.

Definition contrast : violation :=
  {| v_id := "color-contrast"; impact := "serious";
     description := "Elements must meet minimum color contrast ratio thresholds";
     help := "Elements must have sufficient color contrast";
     helpUrl := "https://dequeuniversity.com/rules/axe/4.4/color-contrast";
     nodes := [ {| html := "<a href=/>Home</a>" |} ] |}.

Definition no_issues : tracker_state := {| open_issues := []; console_log := [] |}.


(** ** Properties the specification states of a crawl *)

(** No exception leaves the crawl. *)
Definition failure_absorbed (site : Site) (fuel : nat) (baseUrl : string)
    (depth : Z) : Prop :=
  forall e, (crawl site fuel baseUrl depth).2 <> Threw e.

(** Every link of the page [url] that parses is passed to [spider]. *)
Definition links_followed (site : Site) (fuel : nat) (baseUrl : string)
    (depth : Z) (url : string) : Prop :=
  forall h a, h ∈ static_hrefs site url -> new_URL site h = Some a ->
    a ∈ called (log (crawl site fuel baseUrl depth).1).

(** The pages are audited in the order in which the frontier hands them out. *)
Definition fifo_audits (site : Site) (fuel : nat) (baseUrl : string)
    (depth : Z) : Prop :=
  audited (log (crawl site fuel baseUrl depth).1) =
  fifo_order site fuel [(baseUrl +:+ "/", depth)] [].

(** A checkable form of "every link of a page of [pages] leads to [pages]". *)
Definition closedb (site : Site) (pages : list string) : bool :=
  forallb (fun u =>
    forallb (fun h =>
      match new_URL site h with
      | Some a => bool_decide (a ∈ pages)
      | None => true
      end) (static_hrefs site u)) pages.

Definition cyclic_pages : list string :=
  map (fun p => localhost +:+ p) ["/"; "/a"; "/b"; "/c"].

(** What [dfs] does with one link. *)
Definition visit_link (site : Site) (d : nat) (acc : list string) (h : string)
  : list string :=
  match new_URL site h with
  | Some v => dfs site d v acc
  | None => acc
  end.

(** A checkable form of [page_ok]. *)
Definition page_okb (site : Site) (url : string) : bool :=
  cy_visit site url && cy_checkA11y site url includedImpacts &&
  match cy_get site url with
  | Some _ =>
    forallb (fun h => match new_URL site h with Some _ => true | None => false end)
            (static_hrefs site url)
  | None => false
  end.

(** [visited] holds the audited pages and nothing else. *)
Definition visited_is_audited (st : state) : Prop :=
  forall v, v ∈ visited st <-> v ∈ audited (log st).

Definition tree_pages : list string :=
  map (fun p => localhost +:+ p) ["/"; "/a"; "/b"; "/c"].

(** [tree_site] with another answer to a command the crawl never issues. *)
Definition tree_site' : Site :=
  {| new_URL := new_URL tree_site;
     cy_visit := fun url => negb (bool_decide (url = localhost +:+ "/nowhere"));
     cy_checkA11y := cy_checkA11y tree_site;
     cy_get := cy_get tree_site |}.

(** The listing shows every open issue that carries the searched title. *)
Definition search_finds (gh : Tracker) : Prop :=
  forall t open out,
    t ∈ map title open -> gh_issue_list gh t open = Some out ->
    includes out t = true.

(** The reports directory after the report of [/contact] was saved. *)
Definition contact_reports : files := saveReport "/contact" [contrast] [].

(** ** The front-matter script *)

Definition dq : string := String "034" EmptyString.

(** The white space and line terminators of [String.prototype.trim], as they
    appear in text decoded from UTF-8: one-byte, two-byte and three-byte
    characters. *)
Definition ws1 (c : ascii) : bool :=
  let n := nat_of_ascii c in
  (9 <=? n) && (n <=? 13) || (n =? 32).

Definition ws2 (c1 c2 : ascii) : bool :=
  (nat_of_ascii c1 =? 194) && (nat_of_ascii c2 =? 160).

Definition ws3 (c1 c2 c3 : ascii) : bool :=
  let n1 := nat_of_ascii c1 in
  let n2 := nat_of_ascii c2 in
  let n3 := nat_of_ascii c3 in
  (n1 =? 225) && (n2 =? 154) && (n3 =? 128) ||
  (n1 =? 226) && (n2 =? 128) &&
    ((128 <=? n3) && (n3 <=? 138) || (n3 =? 168) || (n3 =? 169) || (n3 =? 175)) ||
  (n1 =? 226) && (n2 =? 129) && (n3 =? 159) ||
  (n1 =? 227) && (n2 =? 128) && (n3 =? 128) ||
  (n1 =? 239) && (n2 =? 187) && (n3 =? 191).

(** [s.trimStart()] *)
Fixpoint trimStart (s : string) : string :=
  match s with
  | EmptyString => EmptyString
  | String c t =>
    if ws1 c then trimStart t
    else match t with
         | String c2 t2 =>
           if ws2 c c2 then trimStart t2
           else match t2 with
                | String c3 t3 => if ws3 c c2 c3 then trimStart t3 else s
                | EmptyString => s
                end
         | EmptyString => s
         end
  end.

(** [s.trimEnd()]: what is left of [s] once it is white space only is cut. *)
Fixpoint trimEnd (s : string) : string :=
  match trimStart s with
  | EmptyString => EmptyString
  | String _ _ =>
    match s with
    | EmptyString => EmptyString
    | String c t => String c (trimEnd t)
    end
  end.

(** [s.trim()] *)
Definition trim (s : string) : string := trimEnd (trimStart s).

(** [content.trim().startsWith("---")] *)
Definition hasFrontmatter (content : string) : bool :=
  startsWith (trim content) "---".

(** The part of a path after its last [/]. *)
Fixpoint lastSegment (path : string) : string :=
  match path with
  | EmptyString => EmptyString
  | String c t =>
    if includes t "/" then lastSegment t
    else if Ascii.eqb c "/" then t else path
  end.

Definition endsWith (s suffix : string) : bool :=
  String.eqb (dropString (String.length s - String.length suffix) s) suffix.

(** [path.basename(file, ext)] for a path that does not end in [/], as the
    glob returns them: the last segment, without [ext] when it ends in [ext]
    and is more than [ext]. *)
Definition basename (file ext : string) : string :=
  if String.eqb file ext then EmptyString
  else
    let name := lastSegment file in
    if endsWith name ext && negb (String.eqb name ext)
    then String.substring 0 (String.length name - String.length ext) name
    else name.

(** [\w] *)
Definition isWord (c : ascii) : bool :=
  let n := nat_of_ascii c in
  (48 <=? n) && (n <=? 57) || (65 <=? n) && (n <=? 90) ||
  (97 <=? n) && (n <=? 122) || (n =? 95).

(** [l.toUpperCase()] on one character matched by [\w] *)
Definition toUpperCase (c : ascii) : ascii :=
  let n := nat_of_ascii c in
  if (97 <=? n) && (n <=? 122) then ascii_of_nat (n - 32) else c.

(** [s.replace(/\b\w/g, l => l.toUpperCase())]; [prev] says whether the
    character before is a word character. *)
Fixpoint capitalize (prev : bool) (s : string) : string :=
  match s with
  | EmptyString => EmptyString
  | String c t =>
    String (if isWord c && negb prev then toUpperCase c else c)
           (capitalize (isWord c) t)
  end.

Definition makeTitle (fileName : string) : string :=
  capitalize false (replaceAll "-" " " fileName).

Definition frontmatter (title date : string) : string :=
  "---" +:+ nl +:+
  "title: " +:+ dq +:+ title +:+ dq +:+ nl +:+
  "tags:" +:+ nl +:+
  "  - python" +:+ nl +:+
  "description: " +:+ dq +:+ dq +:+ nl +:+
  "date: " +:+ date +:+ nl +:+
  "---" +:+ nl +:+ nl.

Record meta_state := {
  disk : gmap string string;
  addedCount : nat;
  skippedCount : nat
}.

(** The body of [files.forEach]; [today] is
    [new Date().toISOString().split("T")[0]]; [None] when [readFileSync]
    throws. *)
Definition processFile (today : string) (file : string) (st : meta_state)
  : option meta_state :=
  match disk st !! file with
  | None => None
  | Some content =>
    if hasFrontmatter content then
      Some {| disk := disk st; addedCount := addedCount st;
              skippedCount := S (skippedCount st) |}
    else
      let fileName := basename file ".md" in
      let title := makeTitle fileName in
      let newContent := frontmatter title today +:+ content in
      Some {| disk := <[file := newContent]> (disk st);
              addedCount := S (addedCount st);
              skippedCount := skippedCount st |}
  end.

Fixpoint processFiles (today : string) (files : list string) (st : meta_state)
  : option meta_state :=
  match files with
  | [] => Some st
  | file :: tl =>
    match processFile today file st with
    | None => None
    | Some st' => processFiles today tl st'
    end
  end.

(** The script, on the files [globSync] found. *)
Definition addMetadata (today : string) (files : list string)
    (d : gmap string string) : option meta_state :=
  processFiles today files {| disk := d; addedCount := 0; skippedCount := 0 |}.

(** What the script leaves in a file that held [content]. *)
Definition stamped (today file content : string) : string :=
  if hasFrontmatter content then content
  else frontmatter (makeTitle (basename file ".md")) today +:+ content.

(** What [makeTitle] does with one character. *)
Definition capChar (prev : bool) (c : ascii) : ascii :=
  if isWord c && negb prev then toUpperCase c else c.

Definition python_notes : gmap string string :=
  {[ "content/python/list-comprehensions.md" := "# Lists" +:+ nl;
     "content/python/sets.md" := nl +:+ "---" +:+ nl +:+ "title: Sets" +:+ nl +:+ "---" +:+ nl ]}.

Definition python_files : list string :=
  ["content/python/list-comprehensions.md"; "content/python/sets.md"].

(** A site without end: the page at path [p] links to the page at [p ++ "n"]. *)
Definition endless_site : Site :=
  {| new_URL := fun href => Some (localhost +:+ href);
     cy_visit := fun _ => true;
     cy_checkA11y := fun _ _ => true;
     cy_get := fun url =>
       Some [Some (dropString (String.length localhost) url +:+ "n")] |}.

(** The URL [u] is what a link of a page audited in [evs] resolves to, the
    link having passed the tests on its text. *)
Definition linked_from (site : Site) (evs : list event) (u : string) : Prop :=
  exists p h, Audit p ∈ evs /\ h ∈ static_hrefs site p /\
    static_ok h = true /\ new_URL site h = Some u.

(** The listing finds an open issue by its title and nothing else. *)
Definition search_exact (gh : Tracker) : Prop :=
  forall t open out,
    t <> EmptyString -> gh_issue_list gh t open = Some out ->
    (includes out t = true <-> t ∈ map title open).

(** A tracker whose listing prints the searched title when an open issue
    carries it, and whose creation always succeeds. *)
Definition exact_tracker : Tracker :=
  {| gh_issue_list := fun search open =>
       Some (if bool_decide (search ∈ map title open) then search
             else EmptyString);
     gh_issue_create := fun _ _ _ => true |}.



(** * Proofs *)

(** ** Strings *)

Lemma append_nil (b : string) : "" +:+ b = b.
Proof. reflexivity. Qed.

Lemma append_cons (x : ascii) (a b : string) :
  String x a +:+ b = String x (a +:+ b).
Proof. reflexivity. Qed.

Lemma append_assoc (a b c : string) : (a +:+ b) +:+ c = a +:+ (b +:+ c).
Proof.
  induction a as [|x a IH]; [done |]. rewrite !append_cons. by f_equal.
Qed.

Lemma append_inj_l (a b c : string) : a +:+ b = a +:+ c -> b = c.
Proof. apply String.app_inj. Qed.

Lemma includes_replaceAll (c d : ascii) (s : string) :
  c <> d -> includes (replaceAll c d s) (String c EmptyString) = false.
Proof.
  intros Hcd. induction s as [|a s IH]; simpl; [done |].
  rewrite IH, orb_false_r.
  destruct (Ascii.eqb_spec a c) as [->|Hac].
  - destruct (ascii_dec c d); [congruence |]. by destruct (replaceAll c d s).
  - destruct (ascii_dec c a); [congruence |]. by destruct (replaceAll c d s).
Qed.

Lemma includes_tail (a : ascii) (s sub : string) :
  includes (String a s) sub = false -> includes s sub = false.
Proof. simpl. intros H. apply orb_false_iff in H. by destruct H as [_ H]. Qed.

Lemma includes_stripLeading (c : ascii) (s sub : string) :
  includes s sub = false -> includes (stripLeading c s) sub = false.
Proof.
  destruct s as [|a s]; simpl; [done |]. intros H.
  destruct (Ascii.eqb a c); [| done].
  apply orb_false_iff in H. by destruct H.
Qed.

(** ** Report formatting and the report store *)

Lemma formatViolation_starts_with_newline (v : violation) (vs : list violation) :
  exists t, join nl (map formatViolation (v :: vs)) = String "010" t.
Proof.
  simpl. destruct (map formatViolation vs); unfold formatViolation; simpl; eauto.
Qed.

(** Only the empty list is rendered as the sentinel. *)
Lemma format_sentinel_only_when_empty (url : string) (vs : list violation) :
  formatViolationsToMarkdown url vs = header url +:+ sentinel -> vs = [].
Proof.
  destruct vs as [|v vs]; [done |].
  unfold formatViolationsToMarkdown. simpl length.
  rewrite bool_decide_eq_false_2 by done.
  intros H. apply append_inj_l in H.
  destruct (formatViolation_starts_with_newline v vs) as [t Ht].
  rewrite Ht in H. discriminate.
Qed.

Lemma readFileSync_writeFile (dir file content : string) (fs : files) :
  readFileSync dir file (writeFile (dir +:+ "/" +:+ file) content fs) = Some content.
Proof.
  unfold readFileSync.
  induction fs as [|[p c] fs IH]; simpl.
  - rewrite decide_True by done. done.
  - case_bool_decide as Hp; simpl.
    + rewrite decide_True by done. done.
    + rewrite decide_False by done.
      destruct (list_find _ (writeFile _ _ fs)) as [[i [p' c']]|] eqn:E;
        simpl in *; [| done]. done.
Qed.

(** C6: for every page URL, an empty violation list is formatted as the page
    heading followed by the line [_No violations found._] and nothing else. *)
Theorem format_no_violations (url : string) :
  formatViolationsToMarkdown url [] =
    "## Accessibility Violations on `" +:+ url +:+ "`" +:+ nl +:+ nl +:+
    "_No violations found._" /\
  formatViolationsToMarkdown url [] = header url +:+ sentinel.
Proof.
  split; [| done].
  unfold formatViolationsToMarkdown, header, sentinel. simpl.
  by rewrite !append_assoc.
Qed.

(** C7: the root path [/] is stored under the key [home]; any other path is
    stored under the path with every [/] replaced by [-] and one leading [-]
    removed, so a path [/rest] is stored under [rest] with its slashes replaced;
    the key holds no [/], and the report of the page is the file
    [a11y-<slug>.md] of the reports directory. *)
Theorem safeName_slug (url rest : string) (violations : list violation)
    (fs : files) :
  safeName "/" = "home" /\
  (url <> "/" -> safeName url = stripLeading "-" (replaceAll "/" "-" url)) /\
  (rest <> "" -> safeName (String "/" rest) = replaceAll "/" "-" rest) /\
  includes (safeName url) "/" = false /\
  reportName url = "a11y-" +:+ safeName url +:+ ".md" /\
  readFileSync reportsDir (reportName url) (saveReport url violations fs) =
    Some (formatViolationsToMarkdown url violations).
Proof.
  repeat split.
  - intros Hne. unfold safeName. by rewrite bool_decide_eq_false_2.
  - intros Hne. unfold safeName.
    rewrite bool_decide_eq_false_2 by (intros [= ?]; done). done.
  - unfold safeName. case_bool_decide; [done |].
    apply includes_stripLeading, includes_replaceAll. done.
  - unfold saveReport, reportName.
    apply (readFileSync_writeFile reportsDir).
Qed.

Lemma safeName_slug_witness :
  "/about/team" <> "/" /\ "about/team" <> "" /\
  safeName "/about/team" = "about-team" /\
  reportName "/about/team" = "a11y-about-team.md".
Proof.
  destruct (safeName_slug "/about/team" "about/team" [] []) as (_ & H1 & H2 & _ & H3 & _).
  split; [done |]. split; [done |]. split.
  - rewrite H2; [reflexivity | done].
  - rewrite H3, H2; [reflexivity | done].
Defined.

(** ** The crawl as a sequence of steps *)

(** Induction over [each]: a relation that holds of doing nothing, composes
    along successful iterations and holds of every iteration holds of the
    loop. *)
Lemma each_ind (P : state -> state -> outcome -> Prop)
    (f : string -> state -> state * outcome) (hrefs : list string) :
  (forall st, P st st Done) ->
  (forall st1 st2 st3 out, P st1 st2 Done -> P st2 st3 out -> P st1 st3 out) ->
  (forall h st, h ∈ hrefs -> P st (f h st).1 (f h st).2) ->
  forall st, P st (each f hrefs st).1 (each f hrefs st).2.
Proof.
  intros Hrefl Htrans. induction hrefs as [|h tl IH]; intros Hf st; simpl.
  - apply Hrefl.
  - assert (Hh : P st (f h st).1 (f h st).2) by (apply Hf; left).
    destruct (f h st) as [st1 [| e |]]; simpl in *; try exact Hh.
    eapply Htrans; [exact Hh |]. apply IH. intros h' st' Hin. apply Hf. by right.
Qed.

Lemma spider_steps (site : Site) (fuel : nat) (url : string) (depth : Z)
    (st : state) :
  rtc (step site) st (spider site fuel url depth st).1.
Proof.
  revert url depth st. induction fuel as [|fuel IH]; intros url depth st; simpl.
  - apply rtc_refl.
  - destruct (bool_decide (url ∈ visited st)) eqn:Hvis; simpl.
    { apply rtc_once, step_skip. }
    apply bool_decide_eq_false in Hvis.
    case_bool_decide as Hd; simpl.
    { apply rtc_once, step_skip. }
    destruct (cy_visit site url) eqn:Hvisit; simpl.
    2:{ apply rtc_once. by apply step_navigate. }
    pose proof (step_audit site url depth st Hvis Hvisit) as Hstep.
    destruct (cy_checkA11y site url includedImpacts); simpl.
    2:{ by apply rtc_once. }
    destruct (cy_get site url) as [anchors|]; [| by apply rtc_once].
    destruct (filter_hrefs _ _ anchors) as [e|kept]; [by apply rtc_once |].
    eapply rtc_l; [exact Hstep |].
    apply (each_ind (fun s s' _ => rtc (step site) s s')).
    + intros s. apply rtc_refl.
    + intros s1 s2 s3 _ H12 H23. by etrans.
    + intros h s _. destruct (new_URL site h); [apply IH | apply rtc_refl].
Qed.

Lemma step_block (site : Site) (st st' : state) :
  step site st st' ->
  exists url depth n,
    log st' = log st ++ block url depth n /\
    (n = 4 -> cy_visit site url = true) /\
    (n = 1 /\ visited st' = visited st \/
     (n = 3 \/ n = 4) /\ (url ∉ visited st) /\ visited st' = {[url]} ∪ visited st).
Proof.
  intros [url depth s | url depth s Hnew | url depth s Hnew Hvisit];
    exists url, depth.
  - exists 1. split; [done |]. split; [done | by left].
  - exists 3. simpl. rewrite <- !app_assoc. split; [done |].
    split; [done |]. right. auto.
  - exists 4. simpl. rewrite <- !app_assoc. split; [done |].
    split; [done |]. right. auto.
Qed.

Lemma steps_visited_mono (site : Site) (st st' : state) :
  rtc (step site) st st' -> visited st ⊆ visited st'.
Proof.
  induction 1 as [|s1 s2 s3 H12 _ IH]; [done |].
  apply step_block in H12 as (u & d & n & _ & _ & [[_ Hv] | (_ & _ & Hv)]);
    set_solver.
Qed.

Lemma crawl_inv_init (site : Site) : crawl_inv site init.
Proof.
  repeat split; simpl; try constructor; intros u Hu; by apply elem_of_nil in Hu.
Qed.

Lemma crawl_inv_step (site : Site) (st st' : state) :
  crawl_inv site st -> step site st st' -> crawl_inv site st'.
Proof.
  intros (Hvis & Hnd & Hin & Hnav & Haud) Hstep.
  apply step_block in Hstep
    as (u & d & n & Hlog & H4 & [[-> Hv] | ([-> | ->] & Hnew & Hv)]);
    unfold crawl_inv, added, navigated, audited in *;
    rewrite Hlog, Hv, !omap_app; simpl; rewrite ?app_nil_r.
  - done.
  - repeat split.
    + done.
    + apply NoDup_app. repeat split; [done | | apply NoDup_singleton].
      intros x Hx ->%list_elem_of_singleton. apply Hnew, Hin, Hx.
    + intros x [Hx | ->%list_elem_of_singleton]%elem_of_app; set_solver.
    + by f_equal.
    + by apply sublist_inserts_r.
  - repeat split.
    + intros x [Hx | ->%list_elem_of_singleton]%elem_of_app; auto.
    + apply NoDup_app. repeat split; [done | | apply NoDup_singleton].
      intros x Hx ->%list_elem_of_singleton. apply Hnew, Hin, Hx.
    + intros x [Hx | ->%list_elem_of_singleton]%elem_of_app; set_solver.
    + by f_equal.
    + by apply sublist_app.
Qed.

Lemma crawl_inv_steps (site : Site) (st st' : state) :
  rtc (step site) st st' -> crawl_inv site st -> crawl_inv site st'.
Proof. induction 1; eauto using crawl_inv_step. Qed.

Lemma crawl_inv_NoDup (site : Site) (st : state) :
  crawl_inv site st ->
  NoDup (added (log st)) /\ NoDup (navigated (log st)) /\ NoDup (audited (log st)).
Proof.
  intros (_ & Hnd & _ & Hnav & Haud). rewrite Hnav in *.
  repeat split; [done | done |]. by eapply sublist_NoDup.
Qed.

Lemma inserted_first_step (site : Site) (st st' : state) :
  inserted_first (log st) -> step site st st' -> inserted_first (log st').
Proof.
  intros Hord Hstep.
  apply step_block in Hstep as (u & d & n & Hlog & _ & Hn).
  rewrite Hlog. intros i v Hi.
  destruct (decide (i < length (log st))) as [Hlt | Hge].
  - rewrite !lookup_app_l in Hi by done.
    destruct (Hord i v Hi) as (j & Hj & Hadd). exists j. split; [done |].
    rewrite lookup_app_l; [done | lia].
  - rewrite !lookup_app_r in Hi by lia.
    exists (length (log st) + 1).
    rewrite lookup_app_r by lia.
    replace (length (log st) + 1 - length (log st)) with 1 by lia.
    remember (i - length (log st)) as k eqn:Hk.
    assert (Hn' : n = 1 \/ n = 3 \/ n = 4) by naive_solver.
    destruct Hn' as [-> | [-> | ->]];
      destruct k as [|[|[|[|k]]]]; simpl in Hi;
      (destruct Hi as [Hi | Hi]; try discriminate Hi);
      injection Hi as ->; (split; [lia | done]).
Qed.

Lemma inserted_first_steps (site : Site) (st st' : state) :
  rtc (step site) st st' -> inserted_first (log st) -> inserted_first (log st').
Proof. induction 1; eauto using inserted_first_step. Qed.

(** Once a URL is in [visited], no later step navigates to it or audits it. *)
Lemma steps_protect (site : Site) (u : string) (st st' : state) :
  rtc (step site) st st' -> u ∈ visited st ->
  u ∈ visited st' /\
  exists evs, log st' = log st ++ evs /\
    (Add u ∉ evs) /\ (Visit u ∉ evs) /\ (Audit u ∉ evs).
Proof.
  induction 1 as [s | s1 s2 s3 H12 _ IH]; intros Hu.
  - split; [done |]. exists []. rewrite app_nil_r.
    split; [done |]. repeat split; apply not_elem_of_nil.
  - apply step_block in H12 as (v & d & n & Hlog & _ & Hn).
    assert (Hu2 : u ∈ visited s2) by (destruct Hn as [[_ ->] | (_ & _ & ->)]; set_solver).
    destruct (IH Hu2) as (Hu3 & evs & Hlog' & Ha & Hv & Hau).
    split; [done |]. exists (block v d n ++ evs).
    rewrite Hlog', Hlog, <- app_assoc. split; [done |].
    assert (Hb : (Add u ∉ block v d n) /\ (Visit u ∉ block v d n) /\
                 (Audit u ∉ block v d n)).
    { destruct Hn as [[-> _] | ([-> | ->] & Hnew & _)]; unfold block; simpl;
        repeat split; rewrite !elem_of_cons, elem_of_nil; naive_solver. }
    destruct Hb as (? & ? & ?).
    repeat split; intros [?|?]%elem_of_app; done.
Qed.

(** ** The link filter *)

Lemma static_list_cons (a : option string) (anchors : list (option string)) :
  static_list (a :: anchors) =
  match a with
  | Some h => if static_ok h then h :: static_list anchors else static_list anchors
  | None => static_list anchors
  end.
Proof.
  unfold static_list. destruct a as [h|]; simpl; [| done].
  rewrite filter_cons. by destruct (static_ok h).
Qed.

Lemma static_hrefs_get (site : Site) (url : string) (anchors : list (option string)) :
  cy_get site url = Some anchors -> static_hrefs site url = static_list anchors.
Proof. unfold static_hrefs. by intros ->. Qed.

Lemma filter_hrefs_spec (site : Site) (vis : gset string)
    (anchors : list (option string)) :
  match filter_hrefs site vis anchors with
  | inl e => exists h, e = InvalidURL h /\ h ∈ static_list anchors /\
                       new_URL site h = None
  | inr kept =>
      (forall h, h ∈ static_list anchors -> is_Some (new_URL site h)) /\
      kept = filter (fun h => unvisited site vis h = true) (static_list anchors)
  end.
Proof.
  induction anchors as [|a anchors IH]; simpl.
  - split; [| done]. intros h Hh. by apply elem_of_nil in Hh.
  - rewrite static_list_cons. destruct a as [h|]; simpl;
      [| destruct (filter_hrefs site vis anchors); exact IH].
    destruct (static_ok h) eqn:Hok; simpl.
    + destruct (new_URL site h) as [a|] eqn:Hurl.
      * destruct (filter_hrefs site vis anchors) as [e|kept].
        { destruct IH as (h' & -> & Hin & Hnone). exists h'.
          split; [done |]. split; [by right | done]. }
        destruct IH as [Hall ->]. split.
        { intros h' [-> | Hin]%elem_of_cons; [by rewrite Hurl | by apply Hall]. }
        assert (Hu : unvisited site vis h = negb (bool_decide (a ∈ vis)))
          by (unfold unvisited; by rewrite Hurl).
        rewrite filter_cons, Hu.
        by destruct (bool_decide (a ∈ vis)).
      * exists h. split; [done |]. split; [by left | done].
    + destruct (filter_hrefs site vis anchors) as [e|kept]; exact IH.
Qed.

Lemma filter_hrefs_inl (site : Site) (vis vis' : gset string)
    (anchors : list (option string)) (e : error) :
  filter_hrefs site vis anchors = inl e -> filter_hrefs site vis' anchors = inl e.
Proof.
  induction anchors as [|a anchors IH]; simpl; [done |].
  destruct a as [h|]; simpl.
  - destruct (static_ok h); simpl.
    + destruct (new_URL site h); [| done].
      destruct (filter_hrefs site vis anchors) as [e'|]; [| done].
      intros [= ->]. by rewrite IH.
    + destruct (filter_hrefs site vis anchors) as [e'|]; [| done].
      intros [= ->]. by rewrite IH.
  - destruct (filter_hrefs site vis anchors) as [e'|]; [| done].
    intros [= ->]. by rewrite IH.
Qed.

Lemma elem_of_JSSet_from (x : string) (s xs : list string) :
  x ∈ JSSet_from s xs <-> x ∈ s \/ x ∈ xs.
Proof.
  revert s. induction xs as [|y xs IH]; intros s; simpl.
  - set_solver.
  - unfold JSSet_from in *. simpl. rewrite IH. unfold JSSet_add.
    case_decide; set_solver.
Qed.

Lemma elem_of_JSSet_of (x : string) (xs : list string) :
  x ∈ JSSet_of xs <-> x ∈ xs.
Proof. unfold JSSet_of. rewrite elem_of_JSSet_from. set_solver. Qed.

(** ** Failures end the run *)

Lemma spider_outcome (site : Site) (fuel : nat) (url : string) (depth : Z)
    (st : state) :
  pages_ok site (log st) ->
  sound_outcome site (spider site fuel url depth st).1
                     (spider site fuel url depth st).2.
Proof.
  revert url depth st. induction fuel as [|fuel IH]; intros url depth st Hok;
    simpl; [done |].
  destruct (bool_decide (url ∈ visited st)); simpl.
  { intros u. unfold navigated. rewrite omap_app. simpl. rewrite app_nil_r.
    apply Hok. }
  case_bool_decide as Hd; simpl.
  { intros u. unfold navigated. rewrite omap_app. simpl. rewrite app_nil_r.
    apply Hok. }
  assert (Hadd : pages_ok site (log st ++ [Call url depth; Add url])).
  { intros u. unfold navigated. rewrite !omap_app. simpl. rewrite !app_nil_r.
    apply Hok. }
  destruct (cy_visit site url) eqn:Hvisit; simpl.
  2:{ exists url, (log st ++ [Call url depth; Add url]).
      unfold cause. rewrite Hvisit. simpl. rewrite <- !app_assoc. done. }
  destruct (cy_checkA11y site url includedImpacts) eqn:Haudit; simpl.
  2:{ exists url, (log st ++ [Call url depth; Add url]).
      unfold cause. rewrite Hvisit, Haudit. simpl.
      rewrite <- !app_assoc. done. }
  destruct (cy_get site url) as [anchors|] eqn:Hget.
  2:{ exists url, (log st ++ [Call url depth; Add url]).
      unfold cause. rewrite Hvisit, Haudit, Hget. simpl.
      rewrite <- !app_assoc. done. }
  pose proof (filter_hrefs_spec site ({[url]} ∪ visited st) anchors) as Hspec.
  destruct (filter_hrefs site ({[url]} ∪ visited st) anchors) as [e|kept] eqn:Hf.
  { exists url, (log st ++ [Call url depth; Add url]).
    unfold cause. rewrite Hvisit, Haudit, Hget. simpl.
    rewrite (filter_hrefs_inl _ _ ∅ _ _ Hf), <- !app_assoc. done. }
  destruct Hspec as [Hparse Hkept].
  match goal with
  | |- context [each ?f ?hs _] =>
    apply (each_ind (fun s s' out =>
                       pages_ok site (log s) -> sound_outcome site s' out) f hs)
  end.
  - done.
  - intros s1 s2 s3 out H12 H23 H1. apply H23, H12, H1.
  - intros h s Hin Hs.
    apply (proj1 (elem_of_JSSet_of _ _)) in Hin. rewrite Hkept in Hin.
    apply list_elem_of_filter in Hin as [_ Hin].
    destruct (Hparse h Hin) as [a Ha]. rewrite Ha. by apply IH.
  - simpl. intros u. unfold navigated. rewrite !omap_app. simpl.
    rewrite !app_nil_r.
    intros [Hu | ->%list_elem_of_singleton]%elem_of_app; [by apply Hok |].
    repeat split; [done | done | by rewrite Hget |].
    intros h Hh. apply Hparse. by rewrite <- (static_hrefs_get site url).
Qed.

Lemma crawl_outcome (site : Site) (fuel : nat) (baseUrl : string) (depth : Z) :
  sound_outcome site (crawl site fuel baseUrl depth).1
                     (crawl site fuel baseUrl depth).2.
Proof.
  apply spider_outcome. intros u Hu. by apply elem_of_nil in Hu.
Qed.

Lemma page_ok_cause (site : Site) (u : string) :
  page_ok site u -> cause site u = None.
Proof.
  intros (Hv & Ha & [anchors Hg] & Hparse). unfold cause.
  rewrite Hv, Ha, Hg. simpl.
  pose proof (filter_hrefs_spec site ∅ anchors) as Hspec.
  destruct (filter_hrefs site ∅ anchors) as [e|]; [| done].
  destruct Hspec as (h & _ & Hin & Hnone).
  rewrite <- (static_hrefs_get site u) in Hin by done.
  apply Hparse in Hin as [a Ha']. congruence.
Qed.

(** A navigated page that raises an exception is the last thing a run does. *)
Lemma failure_is_final (site : Site) (fuel : nat) (baseUrl : string) (depth : Z)
    (u : string) (e : error) :
  u ∈ navigated (log (crawl site fuel baseUrl depth).1) ->
  cause site u = Some e ->
  (crawl site fuel baseUrl depth).2 = Threw e /\
  exists l, pages_ok site l /\
    log (crawl site fuel baseUrl depth).1 =
      l ++ (if cy_visit site u then [Visit u; Audit u] else [Visit u]).
Proof.
  intros Hnav Hcause. pose proof (crawl_outcome site fuel baseUrl depth) as Hout.
  assert (Hbad : ~ page_ok site u).
  { intros Hok%page_ok_cause. congruence. }
  destruct (crawl site fuel baseUrl depth) as [st out]. simpl in *.
  destruct out as [| e' |]; simpl in Hout;
    try (exfalso; apply Hbad, Hout, Hnav).
  destruct Hout as (u' & l & Hl & Hc & Hlog).
  assert (u = u') as <-.
  { rewrite Hlog in Hnav. unfold navigated in Hnav. rewrite omap_app in Hnav.
    apply elem_of_app in Hnav as [Hin | Hin].
    - exfalso. apply Hbad, Hl, Hin.
    - destruct (cy_visit site u'); simpl in Hin;
        by apply list_elem_of_singleton in Hin. }
  split; [congruence |]. by exists l.
Qed.

(** ** Fuel *)

Lemma each_fuel_mono (f g : string -> state -> state * outcome)
    (hrefs : list string) (st : state) :
  (forall h s, (f h s).2 <> OutOfFuel -> g h s = f h s) ->
  (each f hrefs st).2 <> OutOfFuel -> each g hrefs st = each f hrefs st.
Proof.
  intros Hfg. revert st. induction hrefs as [|h tl IH]; intros st; simpl; [done |].
  destruct (f h st) as [s1 o1] eqn:Hf. intros Hout.
  assert (Hg : g h st = (s1, o1)).
  { rewrite <- Hf. apply Hfg. rewrite Hf. simpl. by destruct o1. }
  rewrite Hg. destruct o1; [by apply IH | done | done].
Qed.

(** A run that did not run out of fuel is the same with more fuel. *)
Lemma spider_fuel_mono (site : Site) (fuel fuel' : nat) (url : string)
    (depth : Z) (st : state) :
  fuel <= fuel' ->
  (spider site fuel url depth st).2 <> OutOfFuel ->
  spider site fuel' url depth st = spider site fuel url depth st.
Proof.
  revert fuel' url depth st.
  induction fuel as [|fuel IH]; intros fuel' url depth st Hle; simpl; [done |].
  destruct fuel' as [|fuel']; [lia |]. simpl.
  destruct (bool_decide (url ∈ visited st) || bool_decide (depth = 0%Z)); [done |].
  destruct (negb (cy_visit site url)); [done |].
  destruct (negb (cy_checkA11y site url includedImpacts)); [done |].
  destruct (cy_get site url) as [anchors|]; [| done].
  destruct (filter_hrefs _ _ anchors) as [e|kept]; [done |].
  apply each_fuel_mono. intros h s.
  destruct (new_URL site h); [| done]. apply IH. lia.
Qed.

Lemma spider_enough_fuel (site : Site) (U : gset string) :
  closed_under_links site U ->
  forall fuel url depth st,
    url ∈ U -> size (U ∖ visited st) < fuel ->
    (spider site fuel url depth st).2 <> OutOfFuel.
Proof.
  intros Hclosed. induction fuel as [|fuel IH]; intros url depth st HU Hsize;
    [lia |]. simpl.
  destruct (bool_decide (url ∈ visited st)) eqn:Hvis; simpl; [done |].
  apply bool_decide_eq_false in Hvis.
  case_bool_decide as Hd; simpl; [done |].
  destruct (cy_visit site url); simpl; [| done].
  destruct (cy_checkA11y site url includedImpacts); simpl; [| done].
  destruct (cy_get site url) as [anchors|] eqn:Hget; [| done].
  pose proof (filter_hrefs_spec site ({[url]} ∪ visited st) anchors) as Hspec.
  destruct (filter_hrefs site ({[url]} ∪ visited st) anchors) as [e|kept];
    [done |].
  destruct Hspec as [_ Hkept].
  assert (Hless : size (U ∖ ({[url]} ∪ visited st)) < size (U ∖ visited st)).
  { apply subset_size. set_solver. }
  match goal with
  | |- context [each ?f ?hs ?s0] =>
    cut ({[url]} ∪ visited st ⊆ visited s0 ->
         (each f hs s0).2 <> OutOfFuel /\
         {[url]} ∪ visited st ⊆ visited (each f hs s0).1);
      [intros Hcut; apply Hcut; done |];
    apply (each_ind (fun s s' out =>
             {[url]} ∪ visited st ⊆ visited s ->
             out <> OutOfFuel /\ {[url]} ∪ visited st ⊆ visited s') f hs)
  end.
  - done.
  - intros s1 s2 s3 out H12 H23 H1. apply H23, H12, H1.
  - intros h s Hin Hs.
    apply (proj1 (elem_of_JSSet_of _ _)) in Hin. rewrite Hkept in Hin.
    apply list_elem_of_filter in Hin as [Hunv Hin].
    unfold unvisited in Hunv.
    destruct (new_URL site h) as [a|] eqn:Ha; [| done]. split.
    + apply IH.
      * apply (Hclosed url h a); [done | | done].
        by rewrite (static_hrefs_get site url anchors).
      * assert (size (U ∖ visited s) <= size (U ∖ ({[url]} ∪ visited st)))
          by (apply subseteq_size; set_solver).
        lia.
    + etrans; [exact Hs |]. eapply steps_visited_mono, spider_steps.
Qed.

(** With a depth that is not negative, [depth + 1] levels of nesting are
    enough on any site. *)
Lemma spider_depth_fuel (site : Site) (fuel : nat) (url : string) (depth : Z)
    (st : state) :
  (0 <= depth)%Z -> Z.to_nat depth < fuel ->
  (spider site fuel url depth st).2 <> OutOfFuel.
Proof.
  revert url depth st. induction fuel as [|fuel IH]; intros url depth st Hd Hf;
    [lia |]. simpl.
  destruct (bool_decide (url ∈ visited st)); simpl; [done |].
  case_bool_decide as Hd0; simpl; [done |].
  destruct (cy_visit site url); simpl; [| done].
  destruct (cy_checkA11y site url includedImpacts); simpl; [| done].
  destruct (cy_get site url) as [anchors|]; [| done].
  destruct (filter_hrefs _ _ anchors) as [e|kept]; [done |].
  match goal with
  | |- context [each ?f ?hs _] =>
    apply (each_ind (fun _ _ out => out <> OutOfFuel) f hs)
  end; [done | done |].
  intros h s _. destruct (new_URL site h); [| done]. apply IH; lia.
Qed.

(** A call on a URL already in [visited] returns at once. *)
Lemma spider_visited (site : Site) (fuel : nat) (url : string) (depth : Z)
    (st : state) :
  url ∈ visited st ->
  spider site (S fuel) url depth st = (emit (Call url depth) st, Done).
Proof. intros Hin. simpl. by rewrite bool_decide_eq_true_2. Qed.

(** The depths of the calls a call makes are below its own. *)
Lemma spider_call_depths (site : Site) (fuel : nat) (url : string) (depth : Z)
    (st : state) :
  exists evs, log (spider site fuel url depth st).1 = log st ++ evs /\
    forall u d, Call u d ∈ evs -> (d <= depth)%Z /\
      (Call u d ∈ tail evs -> (d < depth)%Z).
Proof.
  revert url depth st. induction fuel as [|fuel IH]; intros url depth st; simpl.
  { exists []. rewrite app_nil_r. split; [done |]. by intros u d Hin%elem_of_nil. }
  assert (Hblock : forall n, exists evs,
            log st ++ block url depth n = log st ++ evs /\
            forall u d, Call u d ∈ evs -> (d <= depth)%Z /\
              (Call u d ∈ tail evs -> (d < depth)%Z)).
  { intros n. exists (block url depth n). split; [done |].
    intros u d. destruct n as [|[|[|[|n]]]]; unfold block; simpl;
      rewrite ?take_nil, ?elem_of_cons, ?elem_of_nil; naive_solver lia. }
  destruct (bool_decide (url ∈ visited st)); simpl; [apply (Hblock 1) |].
  case_bool_decide as Hd; simpl; [apply (Hblock 1) |].
  destruct (cy_visit site url); simpl.
  2:{ rewrite <- !app_assoc. apply (Hblock 3). }
  destruct (cy_checkA11y site url includedImpacts); simpl.
  2:{ rewrite <- !app_assoc. apply (Hblock 4). }
  destruct (cy_get site url) as [anchors|].
  2:{ simpl. rewrite <- !app_assoc. apply (Hblock 4). }
  destruct (filter_hrefs _ _ anchors) as [e|kept].
  { simpl. rewrite <- !app_assoc. apply (Hblock 4). }
  match goal with
  | |- context [each ?f ?hs ?s0] =>
    assert (Hloop : exists evs, log (each f hs s0).1 = log s0 ++ evs /\
              forall u d, Call u d ∈ evs -> (d < depth)%Z);
      [apply (each_ind (fun s s' _ => exists evs, log s' = log s ++ evs /\
                forall u d, Call u d ∈ evs -> (d < depth)%Z) f hs) |]
  end.
  - intros s. exists []. rewrite app_nil_r. split; [done |].
    by intros u d Hin%elem_of_nil.
  - intros s1 s2 s3 _ (e12 & H12 & Hd12) (e23 & H23 & Hd23).
    exists (e12 ++ e23). rewrite H23, H12, <- app_assoc. split; [done |].
    intros u d [Hin | Hin]%elem_of_app; eauto.
  - intros h s _. destruct (new_URL site h) as [a|].
    + destruct (IH a (depth - 1)%Z s) as (evs & Hlog & Hdep).
      exists evs. split; [done |]. intros u d Hin.
      destruct (Hdep u d Hin). lia.
    + exists []. simpl. rewrite app_nil_r. split; [done |].
      by intros u d Hin%elem_of_nil.
  - destruct Hloop as (evs & Hlog & Hdep).
    exists (block url depth 4 ++ evs). rewrite Hlog. simpl.
    rewrite <- !app_assoc. split; [done |].
    intros u d Hin. simpl in Hin.
    rewrite !elem_of_cons in Hin. split.
    + destruct Hin as [Hin | [? | [? | [? | Hin]]]]; try done.
      * injection Hin as -> ->. lia.
      * apply Hdep in Hin. lia.
    + simpl. rewrite !elem_of_cons.
      intros [? | [? | [? | Hin']]]; try done. by apply Hdep in Hin'.
Qed.

(** ** The claims about the crawl *)

Lemma closedb_sound (site : Site) (pages : list string) :
  closedb site pages = true -> closed_under_links site (list_to_set pages).
Proof.
  unfold closedb. rewrite forallb_forall. intros Hall u h a Hu Hh Ha.
  apply elem_of_list_to_set in Hu. apply list_elem_of_In in Hu.
  specialize (Hall u Hu). rewrite forallb_forall in Hall.
  apply list_elem_of_In in Hh. specialize (Hall h Hh). rewrite Ha in Hall.
  apply bool_decide_eq_true in Hall. by apply elem_of_list_to_set.
Qed.

Lemma elem_of_static_list (h : string) (anchors : list (option string)) :
  h ∈ static_list anchors <-> Some h ∈ anchors /\ static_ok h = true.
Proof.
  unfold static_list. rewrite list_elem_of_filter, list_elem_of_omap.
  split.
  - intros [Hok (a & Hin & ->)]. done.
  - intros [Hin Hok]. split; [done |]. by exists (Some h).
Qed.

Lemma audited_navigated (site : Site) (st : state) (u : string) :
  crawl_inv site st -> u ∈ audited (log st) -> u ∈ navigated (log st).
Proof. intros (_ & _ & _ & _ & Hsub) Hu. by eapply elem_of_sublist. Qed.

(** C1: in every crawl run, whatever the site, the fuel and the outcome, no URL
    is inserted into [visited] twice, navigated to twice, or audited twice. *)
Theorem audited_at_most_once (site : Site) (fuel : nat) (baseUrl : string)
    (depth : Z) :
  NoDup (added (log (crawl site fuel baseUrl depth).1)) /\
  NoDup (navigated (log (crawl site fuel baseUrl depth).1)) /\
  NoDup (audited (log (crawl site fuel baseUrl depth).1)).
Proof.
  apply (crawl_inv_NoDup site).
  eapply crawl_inv_steps; [apply spider_steps | apply crawl_inv_init].
Qed.

(** C2, as stated, fails: started with depth 1 on the site where [/] links to
    [/about] and [/about] to [/about/team], no amount of fuel makes the crawl
    audit [/about]. *)
Lemma about_not_audited_at_depth_one :
  ~ exists fuel,
      localhost +:+ "/about" ∈ audited (log (crawl about_site fuel localhost 1).1).
Proof.
  intros [[|[|fuel]] Hin]; vm_compute in Hin;
    repeat (apply elem_of_cons in Hin as [Hin | Hin]; [discriminate Hin |]);
    by apply elem_of_nil in Hin.
Qed.

(** C2, amended: started with depth 1 on that site the crawl audits [/] only:
    [/about] is passed to [spider] with depth 0, which returns at its guard,
    and [/about/team] is never passed to [spider]; started with depth 2 the
    crawl audits [/] and [/about], and [/about/team] is passed to [spider] with
    depth 0 and not audited. *)
Theorem about_site_depths (fuel : nat) :
  log (crawl about_site (S (S fuel)) localhost 1).1 =
    [Call (localhost +:+ "/") 1; Add (localhost +:+ "/");
     Visit (localhost +:+ "/"); Audit (localhost +:+ "/");
     Call (localhost +:+ "/about") 0] /\
  (crawl about_site (S (S fuel)) localhost 1).2 = Done /\
  (localhost +:+ "/about/team" ∉
     called (log (crawl about_site (S (S fuel)) localhost 1).1)) /\
  audited (log (crawl about_site (S (S (S fuel))) localhost 2).1) =
    [localhost +:+ "/"; localhost +:+ "/about"] /\
  (crawl about_site (S (S (S fuel))) localhost 2).2 = Done.
Proof.
  split; [| split; [| split; [| split]]]; try (vm_compute; reflexivity).
  vm_compute. intros Hin.
  repeat (apply elem_of_cons in Hin as [Hin | Hin]; [discriminate Hin |]).
  by apply elem_of_nil in Hin.
Qed.

(** C3, as stated, fails: on the site whose page [/contact] cannot be loaded the
    exception leaves the crawl. *)
Lemma navigation_failure_not_absorbed :
  ~ failure_absorbed flaky_site 10 localhost 3.
Proof.
  intros H. apply (H (NavigationError (localhost +:+ "/contact"))).
  vm_compute. reflexivity.
Qed.

(** C3, amended: when the navigation to a page or its audit fails, nothing
    catches the failure: the crawl ends with that exception, the failed
    command is the last thing the run does, and every page navigated to before
    it was sound. *)
Theorem audit_failure_propagates (site : Site) (fuel : nat) (baseUrl : string)
    (depth : Z) (u : string) :
  u ∈ navigated (log (crawl site fuel baseUrl depth).1) ->
  cy_visit site u = false \/ cy_checkA11y site u includedImpacts = false ->
  (crawl site fuel baseUrl depth).2 =
    Threw (if cy_visit site u then A11yError u else NavigationError u) /\
  last (log (crawl site fuel baseUrl depth).1) =
    Some (if cy_visit site u then Audit u else Visit u) /\
  forall v, v ∈ navigated (log (crawl site fuel baseUrl depth).1) ->
    v <> u -> page_ok site v.
Proof.
  intros Hnav Hfail.
  assert (Hcause : cause site u =
            Some (if cy_visit site u then A11yError u else NavigationError u)).
  { unfold cause. destruct (cy_visit site u); simpl; [| done].
    destruct Hfail as [? | ->]; done. }
  destruct (failure_is_final site fuel baseUrl depth u _ Hnav Hcause)
    as (Hout & l & Hl & Hlog).
  split; [done |]. rewrite Hlog. split.
  - destruct (cy_visit site u); by rewrite last_app.
  - intros v Hv Hne. unfold navigated in Hv. rewrite omap_app in Hv.
    apply elem_of_app in Hv as [Hv | Hv]; [by apply Hl |].
    destruct (cy_visit site u); simpl in Hv;
      by apply list_elem_of_singleton in Hv.
Qed.

Lemma audit_failure_propagates_witness :
  (crawl flaky_site 10 localhost 3).2 =
    Threw (NavigationError (localhost +:+ "/contact")) /\
  last (log (crawl flaky_site 10 localhost 3).1) =
    Some (Visit (localhost +:+ "/contact")).
Proof.
  destruct (audit_failure_propagates flaky_site 10 localhost 3
              (localhost +:+ "/contact")) as (Hout & Hlast & _).
  - vm_compute. do 1 right. left.
  - left. vm_compute. reflexivity.
  - split; [exact Hout | exact Hlast].
Defined.

(** C5, as stated, fails: the home page of the site carries the href [//],
    which does not parse; the exception leaves the crawl and the other links
    of the page are not followed. *)
Lemma malformed_href_stops_crawl :
  ~ failure_absorbed malformed_site 10 localhost 3 /\
  ~ links_followed malformed_site 10 localhost 3 (localhost +:+ "/").
Proof.
  split.
  - intros H. apply (H (InvalidURL "//")). vm_compute. reflexivity.
  - intros H.
    assert (Hin : localhost +:+ "/about" ∈
                  called (log (crawl malformed_site 10 localhost 3).1)).
    { apply (H "/about"); [vm_compute; left | vm_compute; reflexivity]. }
    vm_compute in Hin.
    repeat (apply elem_of_cons in Hin as [Hin | Hin]; [discriminate Hin |]).
    by apply elem_of_nil in Hin.
Qed.

(** C5, amended: when an audited page that passed its audit carries a href
    that reaches [new URL] and does not parse, the constructor throws inside
    the link filter and nothing catches it: the crawl ends with that exception
    right after the audit of the page, and none of its links is followed. *)
Theorem malformed_href_aborts (site : Site) (fuel : nat) (baseUrl : string)
    (depth : Z) (u : string) (anchors : list (option string)) (h : string) :
  u ∈ audited (log (crawl site fuel baseUrl depth).1) ->
  cy_checkA11y site u includedImpacts = true ->
  cy_get site u = Some anchors ->
  Some h ∈ anchors -> static_ok h = true -> new_URL site h = None ->
  exists h',
    (crawl site fuel baseUrl depth).2 = Threw (InvalidURL h') /\
    Some h' ∈ anchors /\ static_ok h' = true /\ new_URL site h' = None /\
    last (log (crawl site fuel baseUrl depth).1) = Some (Audit u).
Proof.
  intros Haud Ha Hget Hin Hok Hnone.
  assert (Hinv : crawl_inv site (crawl site fuel baseUrl depth).1).
  { eapply crawl_inv_steps; [apply spider_steps | apply crawl_inv_init]. }
  assert (Hvisit : cy_visit site u = true) by (by apply Hinv).
  pose proof (filter_hrefs_spec site ∅ anchors) as Hspec.
  destruct (filter_hrefs site ∅ anchors) as [e|kept] eqn:Hf.
  2:{ destruct Hspec as [Hparse _].
      destruct (Hparse h) as [a Ha']; [by apply elem_of_static_list | congruence]. }
  destruct Hspec as (h' & -> & [Hin' Hok']%elem_of_static_list & Hnone').
  assert (Hcause : cause site u = Some (InvalidURL h')).
  { unfold cause. by rewrite Hvisit, Ha, Hget, Hf. }
  destruct (failure_is_final site fuel baseUrl depth u _
              (audited_navigated _ _ _ Hinv Haud) Hcause)
    as (Hout & l & _ & Hlog).
  exists h'. repeat split; try done.
  rewrite Hlog, Hvisit. by rewrite last_app.
Qed.

Lemma malformed_href_aborts_witness :
  exists h',
    (crawl malformed_site 10 localhost 3).2 = Threw (InvalidURL h') /\
    new_URL malformed_site h' = None.
Proof.
  destruct (malformed_href_aborts malformed_site 10 localhost 3
              (localhost +:+ "/") [Some "/about"; Some "//"; Some "/contact"] "//")
    as (h' & Hout & _ & _ & Hnone & _).
  - vm_compute. left.
  - vm_compute. reflexivity.
  - vm_compute. reflexivity.
  - right. left.
  - vm_compute. reflexivity.
  - vm_compute. reflexivity.
  - exists h'. split; [exact Hout | exact Hnone].
Defined.

(** C9: on every site whose reachable pages lie in a finite set [U], for every
    base URL and every initial depth (negative ones too), the crawl returns:
    with more than [size U] units of fuel it never runs out of fuel and more
    fuel does not change its result.  A call on a URL already in [visited]
    returns at its guard without touching [visited], and every call made
    by the crawl after the first carries a depth strictly below the initial
    one. *)
Theorem crawl_terminates (site : Site) (U : gset string) (baseUrl : string)
    (depth : Z) :
  baseUrl +:+ "/" ∈ U ->
  closed_under_links site U ->
  (forall fuel, size U < fuel ->
     (crawl site fuel baseUrl depth).2 <> OutOfFuel /\
     crawl site fuel baseUrl depth = crawl site (S (size U)) baseUrl depth) /\
  (forall fuel url d st, url ∈ visited st ->
     spider site (S fuel) url d st = (emit (Call url d) st, Done)) /\
  (forall fuel u d,
     Call u d ∈ tail (log (crawl site fuel baseUrl depth).1) -> (d < depth)%Z).
Proof.
  intros Hroot Hclosed.
  assert (Hfuel : forall fuel, size U < fuel ->
            (crawl site fuel baseUrl depth).2 <> OutOfFuel).
  { intros fuel Hlt. apply (spider_enough_fuel site U Hclosed); [done |].
    simpl. rewrite difference_empty_L. done. }
  split; [| split].
  - intros fuel Hlt. split; [by apply Hfuel |].
    apply spider_fuel_mono; [lia |]. apply (Hfuel (S (size U))). lia.
  - intros fuel url d st Hin. by apply spider_visited.
  - intros fuel u d Hin.
    destruct (spider_call_depths site fuel (baseUrl +:+ "/") depth init)
      as (evs & Hlog & Hdep).
    unfold crawl in Hin. rewrite Hlog in Hin. simpl in Hin.
    apply (Hdep u d); [| done]. destruct evs; [by apply elem_of_nil in Hin |].
    by right.
Qed.

Lemma crawl_terminates_witness :
  (crawl cyclic_site 5 localhost (-1)).2 <> OutOfFuel /\
  crawl cyclic_site 7 localhost (-1) = crawl cyclic_site 5 localhost (-1).
Proof.
  destruct (crawl_terminates cyclic_site (list_to_set cyclic_pages) localhost (-1))
    as (Hfuel & _).
  - apply elem_of_list_to_set. vm_compute. left.
  - apply closedb_sound. vm_compute. reflexivity.
  - assert (Hsize : size (list_to_set cyclic_pages : gset string) = 4).
    { vm_compute. reflexivity. }
    rewrite Hsize in Hfuel. split.
    + apply (Hfuel 5). lia.
    + apply (Hfuel 7). lia.
Defined.

(** C10: in every crawl the insertion of a URL into [visited] precedes the
    navigation to the page and its audit, and every page navigated to is in
    [visited] when the crawl ends, also when it ends with an exception; from a
    state whose [visited] holds a URL, no call of [spider] navigates to that URL
    or audits it. *)
Theorem visited_before_audit (site : Site) (fuel : nat) (baseUrl : string)
    (depth : Z) :
  (forall pre e post u,
     log (crawl site fuel baseUrl depth).1 = pre ++ e :: post ->
     e = Visit u \/ e = Audit u -> Add u ∈ pre) /\
  (forall u, u ∈ navigated (log (crawl site fuel baseUrl depth).1) ->
     u ∈ visited (crawl site fuel baseUrl depth).1) /\
  (forall st fuel' url' depth' u, u ∈ visited st ->
     exists evs,
       log (spider site fuel' url' depth' st).1 = log st ++ evs /\
       (Visit u ∉ evs) /\ (Audit u ∉ evs)).
Proof.
  split; [| split].
  - intros pre e post u Hlog He.
    assert (Hord : inserted_first (log (crawl site fuel baseUrl depth).1)).
    { eapply inserted_first_steps; [apply spider_steps |].
      intros i v [Hi | Hi]; simpl in Hi; by rewrite lookup_nil in Hi. }
    destruct (Hord (length pre) u) as (j & Hj & Hadd).
    { rewrite Hlog, list_lookup_middle by done. naive_solver. }
    rewrite Hlog, lookup_app_l in Hadd by done.
    by eapply list_elem_of_lookup_2.
  - intros u Hu.
    assert (Hinv : crawl_inv site (crawl site fuel baseUrl depth).1).
    { eapply crawl_inv_steps; [apply spider_steps | apply crawl_inv_init]. }
    destruct Hinv as (_ & _ & Hin & Hnav & _). apply Hin. by rewrite <- Hnav.
  - intros st fuel' url' depth' u Hu.
    destruct (steps_protect site u st _ (spider_steps site fuel' url' depth' st) Hu)
      as (_ & evs & Hlog & _ & Hv & Ha).
    by exists evs.
Qed.

Lemma visited_before_audit_witness :
  Add (localhost +:+ "/contact") ∈
    [Call (localhost +:+ "/") 3; Add (localhost +:+ "/");
     Visit (localhost +:+ "/"); Audit (localhost +:+ "/");
     Call (localhost +:+ "/contact") 2; Add (localhost +:+ "/contact")] /\
  localhost +:+ "/contact" ∈ visited (crawl flaky_site 10 localhost 3).1 /\
  exists evs,
    log (spider flaky_site 10 (localhost +:+ "/contact") 2
           (crawl flaky_site 10 localhost 3).1).1 =
      log (crawl flaky_site 10 localhost 3).1 ++ evs /\
    (Visit (localhost +:+ "/contact") ∉ evs).
Proof.
  destruct (visited_before_audit flaky_site 10 localhost 3) as (Hord & Hvis & Hprot).
  assert (Hin : localhost +:+ "/contact" ∈ visited (crawl flaky_site 10 localhost 3).1).
  { apply Hvis. vm_compute. right. left. }
  split; [| split; [exact Hin |]].
  - apply (Hord _ (Visit (localhost +:+ "/contact")) []).
    + vm_compute. reflexivity.
    + by left.
  - destruct (Hprot _ 10 (localhost +:+ "/contact") 2%Z _ Hin) as (evs & Hlog & Hv & _).
    exists evs. split; [exact Hlog | exact Hv].
Defined.

(** ** Depth-first order *)

Arguments dfs : simpl never.

Lemma dfs_S (site : Site) (d : nat) (url : string) (seen : list string) :
  dfs site (S d) url seen =
  if decide (url ∈ seen) then seen
  else foldl (visit_link site d) (seen ++ [url]) (static_hrefs site url).
Proof. reflexivity. Qed.

Lemma dfs_extends (site : Site) (d : nat) (url : string) (seen : list string) :
  seen `prefix_of` dfs site d url seen.
Proof.
  revert url seen. induction d as [|d IH]; intros url seen; [done |].
  rewrite dfs_S. case_decide; [done |].
  assert (Hfold : forall l acc, acc `prefix_of` foldl (visit_link site d) acc l).
  { induction l as [|h l IHl]; intros acc; simpl; [done |].
    etrans; [| apply IHl]. unfold visit_link.
    destruct (new_URL site h); [apply IH | done]. }
  etrans; [| apply Hfold]. by apply prefix_app_r.
Qed.

Lemma foldl_visit_extends (site : Site) (d : nat) (l acc : list string) :
  acc `prefix_of` foldl (visit_link site d) acc l.
Proof.
  revert acc. induction l as [|h l IHl]; intros acc; simpl; [done |].
  etrans; [| apply IHl]. unfold visit_link.
  destruct (new_URL site h); [apply dfs_extends | done].
Qed.

Lemma dfs_seen (site : Site) (d : nat) (url : string) (seen : list string) :
  url ∈ seen -> dfs site d url seen = seen.
Proof. intros Hin. destruct d; [done |]. rewrite dfs_S. by rewrite decide_True. Qed.

Lemma dfs_marks (site : Site) (d : nat) (url : string) (seen : list string) :
  url ∈ dfs site (S d) url seen.
Proof.
  rewrite dfs_S. case_decide; [done |].
  eapply elem_of_prefix; [| apply foldl_visit_extends].
  apply elem_of_app. right. by left.
Qed.

(** A link whose page is already listed changes nothing. *)
Lemma visit_link_seen (site : Site) (d : nat) (acc : list string) (h : string) :
  (forall a, new_URL site h = Some a -> a ∈ acc) ->
  visit_link site d acc h = acc.
Proof.
  intros Hin. unfold visit_link.
  destruct (new_URL site h) as [a|]; [| done]. by apply dfs_seen, Hin.
Qed.

(** The links dropped by the filter because their page is in [visited] would
    not have been visited anyway. *)
Lemma foldl_visit_filter (site : Site) (d : nat) (vis : gset string)
    (l acc : list string) :
  (forall v, v ∈ vis -> v ∈ acc) ->
  foldl (visit_link site d) acc (filter (fun h => unvisited site vis h = true) l) =
  foldl (visit_link site d) acc l.
Proof.
  revert acc. induction l as [|h l IH]; intros acc Hvis; [done |].
  assert (Hnext : forall v, v ∈ vis -> v ∈ visit_link site d acc h).
  { intros v Hv. unfold visit_link. destruct (new_URL site h); [| by apply Hvis].
    eapply elem_of_prefix; [by apply Hvis | apply dfs_extends]. }
  rewrite filter_cons. case_decide as Hun; simpl.
  - by apply IH.
  - rewrite (visit_link_seen site d acc h); [by apply IH |].
    intros a Ha. unfold unvisited in Hun. rewrite Ha in Hun.
    apply Hvis. destruct (bool_decide (a ∈ vis)) eqn:Hin; [| done].
    by apply bool_decide_eq_true in Hin.
Qed.

(** A link met before changes nothing when met again. *)
Lemma visit_link_again (site : Site) (d : nat) (s acc : list string) (x : string) :
  x ∈ s ->
  visit_link site d (foldl (visit_link site d) acc s) x =
  foldl (visit_link site d) acc s.
Proof.
  destruct d as [|d].
  { intros _. unfold visit_link. by destruct (new_URL site x). }
  intros Hin. apply visit_link_seen. intros a Ha.
  apply list_elem_of_split in Hin as (s1 & s2 & ->).
  rewrite foldl_app. simpl.
  eapply elem_of_prefix; [| apply foldl_visit_extends].
  unfold visit_link at 1. rewrite Ha. apply dfs_marks.
Qed.

(** Removing the repeated links changes nothing. *)
Lemma foldl_visit_JSSet (site : Site) (d : nat) (l s acc : list string) :
  foldl (visit_link site d) acc (JSSet_from s l) =
  foldl (visit_link site d) acc (s ++ l).
Proof.
  revert s. induction l as [|x l IH]; intros s.
  - by rewrite app_nil_r.
  - unfold JSSet_from in *. simpl. rewrite IH. unfold JSSet_add.
    case_decide as Hin.
    + rewrite !foldl_app. simpl. by rewrite visit_link_again.
    + by rewrite <- app_assoc.
Qed.

Lemma each_dfs (site : Site) (d : nat) (f : string -> state -> state * outcome)
    (hrefs : list string) :
  (forall h s, h ∈ hrefs -> visited_is_audited s ->
     (f h s).2 = Done /\ visited_is_audited (f h s).1 /\
     audited (log (f h s).1) = visit_link site d (audited (log s)) h) ->
  forall s, visited_is_audited s ->
    (each f hrefs s).2 = Done /\ visited_is_audited (each f hrefs s).1 /\
    audited (log (each f hrefs s).1) =
      foldl (visit_link site d) (audited (log s)) hrefs.
Proof.
  induction hrefs as [|h tl IH]; intros Hf s Hs; simpl; [done |].
  destruct (Hf h s) as (Hout & Hinv & Haud); [by left | done |].
  destruct (f h s) as [s1 o1]. simpl in *. subst o1. rewrite <- Haud.
  apply IH; [| done]. intros h' s' Hin. apply Hf. by right.
Qed.

Lemma page_okb_sound (site : Site) (url : string) :
  page_okb site url = true -> page_ok site url.
Proof.
  unfold page_okb, page_ok.
  intros [[Hv Ha]%andb_true_iff Hg]%andb_true_iff.
  destruct (cy_get site url) as [anchors|] eqn:Hget; [| done].
  repeat split; [done | done | by eexists |].
  intros h Hh%list_elem_of_In. rewrite forallb_forall in Hg.
  specialize (Hg h Hh). by destruct (new_URL site h).
Qed.

(** On a sound site the audits of a call are the depth-first search from its
    page. *)
Lemma spider_dfs (site : Site) (U : gset string) :
  closed_under_links site U ->
  (forall u, u ∈ U -> page_ok site u) ->
  forall fuel d url st,
    url ∈ U -> visited_is_audited st -> d < fuel ->
    (spider site fuel url (Z.of_nat d) st).2 = Done /\
    visited_is_audited (spider site fuel url (Z.of_nat d) st).1 /\
    audited (log (spider site fuel url (Z.of_nat d) st).1) =
      dfs site d url (audited (log st)).
Proof.
  intros Hclosed Hsound.
  induction fuel as [|fuel IH]; intros d url st HU Hst Hfuel; [lia |]. simpl.
  assert (Hcall : audited (log st ++ [Call url (Z.of_nat d)]) = audited (log st)).
  { unfold audited. rewrite omap_app. simpl. by rewrite app_nil_r. }
  destruct (bool_decide (url ∈ visited st)) eqn:Hvis; simpl.
  { apply bool_decide_eq_true in Hvis. split; [done |]. split.
    - intros v. simpl. by rewrite Hcall.
    - rewrite Hcall, dfs_seen; [done | by apply Hst]. }
  apply bool_decide_eq_false in Hvis.
  case_bool_decide as Hd; simpl.
  { assert (d = 0) as -> by lia. split; [done |]. split.
    - intros v. simpl. by rewrite Hcall.
    - by rewrite Hcall. }
  destruct d as [|d]; [done |].
  destruct (Hsound url HU) as (Hv & Ha & [anchors Hget] & Hparse).
  rewrite Hv, Ha, Hget. simpl.
  pose proof (filter_hrefs_spec site ({[url]} ∪ visited st) anchors) as Hspec.
  destruct (filter_hrefs site ({[url]} ∪ visited st) anchors) as [e|kept].
  { destruct Hspec as (h & _ & Hin & Hnone).
    rewrite <- (static_hrefs_get site url) in Hin by done.
    apply Hparse in Hin as [a Ha']. congruence. }
  destruct Hspec as [_ Hkept].
  replace (Z.of_nat (S d) - 1)%Z with (Z.of_nat d) by lia.
  set (s4 := emit (Audit url) (emit (Visit url)
               (visited_add url (emit (Call url (Z.of_nat (S d))) st)))).
  assert (Haud4 : audited (log s4) = audited (log st) ++ [url]).
  { unfold s4, audited. simpl. rewrite !omap_app. simpl.
    by rewrite !app_nil_r. }
  assert (Hs4 : visited_is_audited s4).
  { intros v. rewrite Haud4. unfold s4. simpl.
    rewrite elem_of_union, elem_of_singleton, elem_of_app, list_elem_of_singleton.
    rewrite (Hst v). tauto. }
  match goal with
  | |- context [each ?f ?hs s4] =>
    destruct (each_dfs site d f hs) with (s := s4) as (Hout & Hinv & Haud);
      [| exact Hs4 |]
  end.
  - intros h s Hin Hs.
    apply (proj1 (elem_of_JSSet_of _ _)) in Hin. rewrite Hkept in Hin.
    apply list_elem_of_filter in Hin as [Hunv Hin].
    unfold unvisited in Hunv. unfold visit_link.
    destruct (new_URL site h) as [a|] eqn:Ha'; [| done].
    apply IH; [| done | lia].
    apply (Hclosed url h a); [done | | done].
    by rewrite (static_hrefs_get site url anchors).
  - split; [done |]. split; [done |].
    rewrite Haud, Haud4, dfs_S, decide_False by (by rewrite <- (Hst url)).
    unfold JSSet_of. rewrite foldl_visit_JSSet. simpl. rewrite Hkept.
    rewrite foldl_visit_filter, (static_hrefs_get site url anchors); [done.. |].
    intros v. rewrite <- Haud4. apply Hs4.
Qed.

Lemma dfs_ext (site site' : Site) (d : nat) (url : string) (seen : list string) :
  (forall h, new_URL site' h = new_URL site h) ->
  (forall u, cy_get site' u = cy_get site u) ->
  dfs site' d url seen = dfs site d url seen.
Proof.
  intros Hurl Hget. revert url seen.
  induction d as [|d IH]; intros url seen; [done |].
  rewrite !dfs_S. case_decide; [done |].
  unfold static_hrefs. rewrite Hget.
  generalize (seen ++ [url]).
  induction (match cy_get site url with
             | Some anchors => static_list anchors
             | None => []
             end) as [|h l IHl]; intros acc; simpl; [done |].
  rewrite IHl. f_equal. unfold visit_link. rewrite Hurl.
  destruct (new_URL site h); [apply IH | done].
Qed.

Lemma pages_okb_sound (site : Site) (pages : list string) :
  forallb (page_okb site) pages = true ->
  forall u, u ∈ (list_to_set pages : gset string) -> page_ok site u.
Proof.
  rewrite forallb_forall. intros Hall u Hu%elem_of_list_to_set.
  apply page_okb_sound, Hall. by apply list_elem_of_In.
Qed.

(** C8, as stated, fails: on the site where [/] links to [/a] and [/b] and
    [/c] is linked from [/a], the crawl audits [/c] before [/b], while the
    first-in-first-out frontier hands out [/b] before [/c]. *)
Lemma tree_site_not_fifo : ~ fifo_audits tree_site 10 localhost 3.
Proof. unfold fifo_audits. vm_compute. discriminate. Qed.

(** C8, amended: on a site whose pages load, pass the audit and carry links
    that parse, a crawl with a depth that is not negative and fuel above the
    depth returns, and the pages are audited in depth-first pre-order: a page,
    then, link after link in extraction order, everything reached through that
    link down to the depth bound before the next link of the same page.  The
    order depends on the link extraction only: two such sites with the same
    links are audited in the same order. *)
Theorem audits_in_dfs_order (site : Site) (U : gset string) (fuel : nat)
    (baseUrl : string) (depth : Z) :
  baseUrl +:+ "/" ∈ U ->
  closed_under_links site U ->
  (forall u, u ∈ U -> page_ok site u) ->
  (0 <= depth)%Z -> Z.to_nat depth < fuel ->
  (crawl site fuel baseUrl depth).2 = Done /\
  audited (log (crawl site fuel baseUrl depth).1) =
    dfs site (Z.to_nat depth) (baseUrl +:+ "/") [] /\
  forall site',
    (forall h, new_URL site' h = new_URL site h) ->
    (forall u, cy_get site' u = cy_get site u) ->
    (forall u, u ∈ U -> page_ok site' u) ->
    audited (log (crawl site' fuel baseUrl depth).1) =
    audited (log (crawl site fuel baseUrl depth).1).
Proof.
  intros Hroot Hclosed Hsound Hd Hfuel.
  assert (Hinit : visited_is_audited init).
  { intros v. simpl. split; intros Hv; [set_solver | by apply elem_of_nil in Hv]. }
  assert (Hrun : forall s, closed_under_links s U ->
            (forall u, u ∈ U -> page_ok s u) ->
            (crawl s fuel baseUrl depth).2 = Done /\
            audited (log (crawl s fuel baseUrl depth).1) =
              dfs s (Z.to_nat depth) (baseUrl +:+ "/") []).
  { intros s Hc Hs. unfold crawl.
    replace depth with (Z.of_nat (Z.to_nat depth)) at 1 2 by lia.
    destruct (spider_dfs s U Hc Hs fuel (Z.to_nat depth) (baseUrl +:+ "/") init)
      as (Hout & _ & Haud); done. }
  destruct (Hrun site Hclosed Hsound) as [Hout Haud].
  split; [done |]. split; [done |].
  intros site' Hurl Hget Hsound'.
  assert (Hclosed' : closed_under_links site' U).
  { intros u h a Hu Hh Ha. apply (Hclosed u h a); [done | | by rewrite <- Hurl].
    unfold static_hrefs in *. by rewrite <- Hget. }
  destruct (Hrun site' Hclosed' Hsound') as [_ Haud'].
  rewrite Haud', Haud. by apply dfs_ext.
Qed.

Lemma audits_in_dfs_order_witness :
  audited (log (crawl tree_site 10 localhost 3).1) =
    [localhost +:+ "/"; localhost +:+ "/a"; localhost +:+ "/c"; localhost +:+ "/b"] /\
  audited (log (crawl tree_site' 10 localhost 3).1) =
    audited (log (crawl tree_site 10 localhost 3).1).
Proof.
  destruct (audits_in_dfs_order tree_site (list_to_set tree_pages) 10 localhost 3)
    as (_ & Haud & Hsame).
  - apply elem_of_list_to_set. vm_compute. left.
  - apply closedb_sound. vm_compute. reflexivity.
  - apply pages_okb_sound. vm_compute. reflexivity.
  - lia.
  - vm_compute. lia.
  - split.
    + rewrite Haud. vm_compute. reflexivity.
    + apply Hsame.
      * intros h. reflexivity.
      * intros u. reflexivity.
      * apply pages_okb_sound. vm_compute. reflexivity.
Defined.

(** ** Issue filing *)

Lemma fileIssue_titles (gh : Tracker) (fs : files) (file : string)
    (st st' : tracker_state) :
  search_finds gh ->
  fileIssue gh fs file st = Some st' ->
  map title (open_issues st') = map title (open_issues st) \/
  (issueTitle file ∉ map title (open_issues st)) /\
  map title (open_issues st') = map title (open_issues st) ++ [issueTitle file].
Proof.
  intros Hsearch. unfold fileIssue.
  destruct (readFileSync reportsDir file fs) as [content|]; [| done].
  fold (issueTitle file).
  destruct (gh_issue_list gh (issueTitle file) (open_issues st)) as [out|] eqn:Hlist;
    [| done].
  destruct (includes out (issueTitle file)) eqn:Hinc.
  { intros [= <-]. by left. }
  destruct (gh_issue_create gh _ _ _).
  - intros [= <-]. right. simpl. split; [| by rewrite map_app].
    intros Hin. apply (Hsearch _ _ _ Hin) in Hlist. congruence.
  - intros [= <-]. by left.
Qed.

(** With a listing that finds an open issue by its title, no run of the loop
    opens a second issue under a title that is already open. *)
Lemma forEachFile_no_duplicates (gh : Tracker) (fs : files) (names : list string)
    (st : tracker_state) :
  search_finds gh ->
  NoDup (map title (open_issues st)) ->
  NoDup (map title (open_issues (forEachFile gh fs names st).1)).
Proof.
  intros Hsearch. revert st. induction names as [|file tl IH]; intros st Hnd;
    simpl; [done |].
  destruct (fileIssue gh fs file st) as [st'|] eqn:Hfile; [| done].
  apply IH.
  destruct (fileIssue_titles gh fs file st st' Hsearch Hfile) as [-> | [Hnew ->]];
    [done |].
  apply NoDup_app. repeat split; [done | | apply NoDup_singleton].
  intros x Hx ->%list_elem_of_singleton. done.
Qed.

Lemma rerun_no_duplicates (gh : Tracker) (fs : files) :
  search_finds gh ->
  NoDup (map title (open_issues
    (fileIssues gh fs (fileIssues gh fs no_issues).1).1)).
Proof.
  intros Hsearch. unfold fileIssues.
  apply forEachFile_no_duplicates; [done |].
  apply forEachFile_no_duplicates; [done |]. constructor.
Qed.


Lemma prefix_refl (s : string) : String.prefix s s = true.
Proof.
  induction s as [|a s IH]; simpl; [done |].
  destruct (ascii_dec a a); [done | congruence].
Qed.

Lemma prefix_append_l (t a b : string) :
  String.prefix t a = true -> String.prefix t (a +:+ b) = true.
Proof.
  revert a. induction t as [|x t IH]; intros a.
  - intros _. by destruct (a +:+ b).
  - destruct a as [|y a]; [done |]. rewrite append_cons. simpl.
    destruct (ascii_dec x y); [apply IH | done].
Qed.

Lemma includes_refl (s : string) : includes s s = true.
Proof.
  destruct s as [|a s]; [done |].
  unfold includes; fold includes. by rewrite prefix_refl.
Qed.

Lemma includes_cons (x : ascii) (a t : string) :
  includes (String x a) t = String.prefix t (String x a) || includes a t.
Proof. reflexivity. Qed.

Lemma includes_append_l (a b t : string) :
  includes a t = true -> includes (a +:+ b) t = true.
Proof.
  induction a as [|x a IH].
  - destruct t; [| done]. intros _. by destruct b.
  - rewrite append_cons, !includes_cons. intros [H | H]%orb_true_iff.
    + apply (prefix_append_l _ _ b) in H. rewrite append_cons in H.
      by rewrite H.
    + rewrite (IH H). by rewrite orb_true_r.
Qed.

Lemma includes_append_r (a b t : string) :
  includes b t = true -> includes (a +:+ b) t = true.
Proof.
  intros H. induction a as [|x a IH]; [done |].
  rewrite append_cons, includes_cons, IH. by rewrite orb_true_r.
Qed.

Lemma includes_join (sep t : string) (l : list string) :
  t ∈ l -> includes (join sep l) t = true.
Proof.
  induction l as [|x l IH]; [by intros H%elem_of_nil |].
  intros [-> | Hin]%elem_of_cons; simpl.
  - destruct l; [apply includes_refl |].
    apply includes_append_l, includes_refl.
  - destruct l as [|y l]; [by apply elem_of_nil in Hin |].
    by apply includes_append_r, includes_append_r, IH.
Qed.

Lemma plain_tracker_finds : search_finds plain_tracker.
Proof.
  intros t open out Hin [= <-]. apply includes_join.
  apply list_elem_of_fmap in Hin as (i & -> & Hi).
  apply list_elem_of_fmap. exists i. split; [done |].
  apply list_elem_of_filter. split; [apply includes_refl | done].
Qed.

(** C4: after the report of [/contact] is saved and the issue loop has run
    twice against a tracker that was empty, exactly one issue is open, the
    second run having skipped the page; the title of that issue is
    [Accessibility issues on /a11y-contact], built from the file name
    [a11y-contact.md], and not [Accessibility issues on /contact]. *)
Theorem contact_issue_title :
  readdirSync reportsDir contact_reports = ["a11y-contact.md"] /\
  map title (open_issues
    (fileIssues plain_tracker contact_reports
       (fileIssues plain_tracker contact_reports no_issues).1).1) =
    ["Accessibility issues on /a11y-contact"] /\
  console_log
    (fileIssues plain_tracker contact_reports
       (fileIssues plain_tracker contact_reports no_issues).1).1 =
    [Created "a11y-contact"; AlreadyExists "a11y-contact"] /\
  issueTitle (reportName "/contact") <> "Accessibility issues on /contact".
Proof.
  split; [| split; [| split]]; try (vm_compute; reflexivity).
  vm_compute. discriminate.
Qed.

(** ** The front-matter script *)

Lemma trimStart_dash (t : string) : trimStart (String "-" t) = String "-" t.
Proof. destruct t as [|c2 [|c3 t3]]; reflexivity. Qed.

Lemma trimEnd_dash (t : string) :
  trimEnd (String "-" t) = String "-" (trimEnd t).
Proof.
  change (trimEnd (String "-" t))
    with (match trimStart (String "-" t) with
          | EmptyString => EmptyString
          | String _ _ => String "-" (trimEnd t)
          end).
  by rewrite trimStart_dash.
Qed.

Lemma prefix_append (p x : string) : String.prefix p (p +:+ x) = true.
Proof.
  induction p as [|a p IH]; [by destruct x |].
  rewrite append_cons. simpl. destruct (ascii_dec a a); [done | congruence].
Qed.

Lemma hasFrontmatter_dashes (t : string) : hasFrontmatter ("---" +:+ t) = true.
Proof.
  unfold hasFrontmatter, trim.
  change ("---" +:+ t) with (String "-" (String "-" (String "-" t))).
  rewrite trimStart_dash, !trimEnd_dash.
  apply (prefix_append "---").
Qed.

Lemma hasFrontmatter_frontmatter (title date content : string) :
  hasFrontmatter (frontmatter title date +:+ content) = true.
Proof.
  unfold frontmatter. rewrite append_assoc. apply hasFrontmatter_dashes.
Qed.

Lemma hasFrontmatter_stamped (today file content : string) :
  hasFrontmatter (stamped today file content) = true.
Proof.
  unfold stamped. destruct (hasFrontmatter content) eqn:H; [done |].
  apply hasFrontmatter_frontmatter.
Qed.

Lemma processFile_spec (today file : string) (st : meta_state) :
  match processFile today file st with
  | None => disk st !! file = None
  | Some st' =>
    exists content, disk st !! file = Some content /\
      disk st' = <[file := stamped today file content]> (disk st) /\
      addedCount st' + skippedCount st' = S (addedCount st + skippedCount st) /\
      addedCount st' =
        (if hasFrontmatter content then 0 else 1) + addedCount st
  end.
Proof.
  unfold processFile, stamped.
  destruct (disk st !! file) as [content|] eqn:Hread; [| done].
  destruct (hasFrontmatter content) eqn:Hfm; exists content; rewrite Hfm; simpl.
  - split; [done |]. split; [by rewrite insert_id | lia].
  - split; [done |]. split; [done | lia].
Qed.

Lemma processFiles_spec (today : string) (files : list string)
    (st st' : meta_state) :
  processFiles today files st = Some st' ->
  addedCount st' + skippedCount st' =
    addedCount st + skippedCount st + length files /\
  forall f,
    disk st' !! f =
    if decide (f ∈ files) then stamped today f <$> disk st !! f
    else disk st !! f.
Proof.
  revert st. induction files as [|file tl IH]; intros st; simpl.
  { intros [= <-]. split; [lia | done]. }
  pose proof (processFile_spec today file st) as Hfile.
  destruct (processFile today file st) as [st1|]; [| done].
  destruct Hfile as (content & Hread & Hdisk & Hcount & _).
  intros Hrest. destruct (IH st1 Hrest) as [Hcount' Hdisk'].
  split; [lia |]. intros f. rewrite Hdisk', Hdisk.
  destruct (decide (f = file)) as [-> | Hne].
  - rewrite lookup_insert_eq, Hread.
    destruct (decide (file ∈ file :: tl)) as [_ | Hn]; [| set_solver].
    simpl. case_decide; [| done]. simpl. f_equal.
    unfold stamped at 1. by rewrite hasFrontmatter_stamped.
  - rewrite lookup_insert_ne by done.
    destruct (decide (f ∈ tl)) as [Hin | Hin];
      destruct (decide (f ∈ file :: tl)) as [Hin' | Hin']; try done; set_solver.
Qed.

Lemma processFiles_skips (today : string) (files : list string) (st : meta_state) :
  (forall f, f ∈ files ->
     exists c, disk st !! f = Some c /\ hasFrontmatter c = true) ->
  processFiles today files st =
    Some {| disk := disk st; addedCount := addedCount st;
            skippedCount := skippedCount st + length files |}.
Proof.
  revert st. induction files as [|file tl IH]; intros st Hall; simpl.
  { destruct st. simpl. do 2 f_equal. lia. }
  destruct (Hall file) as (c & Hread & Hfm); [by left |].
  unfold processFile. rewrite Hread, Hfm. rewrite IH.
  - simpl. do 2 f_equal. lia.
  - intros f Hf. simpl. apply Hall. by right.
Qed.

Lemma processFiles_reads (today : string) (files : list string) (st : meta_state) :
  is_Some (processFiles today files st) <->
  forall f, f ∈ files -> is_Some (disk st !! f).
Proof.
  revert st. induction files as [|file tl IH]; intros st; simpl.
  { split; [intros _ f Hf; by apply elem_of_nil in Hf | by eexists]. }
  pose proof (processFile_spec today file st) as Hfile.
  destruct (processFile today file st) as [st1|].
  - destruct Hfile as (content & Hread & Hdisk & _).
    rewrite IH. split.
    + intros Hall f [-> | Hf]%elem_of_cons; [by rewrite Hread |].
      specialize (Hall f Hf). rewrite Hdisk in Hall.
      destruct (decide (f = file)) as [-> | Hne]; [by rewrite Hread |].
      by rewrite lookup_insert_ne in Hall.
    + intros Hall f Hf. rewrite Hdisk.
      destruct (decide (f = file)) as [-> | Hne];
        [by rewrite lookup_insert_eq | rewrite lookup_insert_ne by done].
      apply Hall. by right.
  - split; [by intros [? ?] |]. intros Hall.
    destruct (Hall file) as [c Hc]; [by left | congruence].
Qed.

(** X1: when the script runs to its end, every file of the list was counted
    once, as added or as skipped. *)
Theorem addMetadata_counts (today : string) (files : list string)
    (d : gmap string string) (r : meta_state) :
  addMetadata today files d = Some r ->
  addedCount r + skippedCount r = length files.
Proof.
  intros Hrun. by destruct (processFiles_spec _ _ _ _ Hrun) as [Hcount _].
Qed.

Lemma addMetadata_counts_witness :
  exists r, addMetadata "2025-01-01" python_files python_notes = Some r /\
    addedCount r + skippedCount r = 2.
Proof.
  destruct (addMetadata "2025-01-01" python_files python_notes) as [r|] eqn:Hrun.
  - exists r. split; [reflexivity |].
    exact (addMetadata_counts "2025-01-01" python_files python_notes r Hrun).
  - vm_compute in Hrun. discriminate Hrun.
Defined.

(** X2: when the script runs to its end, a file outside the list is untouched,
    a listed file that has front matter is left as it was, and a listed file
    without front matter gets the front matter put before its unchanged
    text. *)
Theorem addMetadata_content (today : string) (files : list string)
    (d : gmap string string) (r : meta_state) (f : string) :
  addMetadata today files d = Some r ->
  disk r !! f =
    if decide (f ∈ files) then
      (fun content =>
         if hasFrontmatter content then content
         else frontmatter (makeTitle (basename f ".md")) today +:+ content)
      <$> d !! f
    else d !! f.
Proof.
  intros Hrun. destruct (processFiles_spec _ _ _ _ Hrun) as [_ Hdisk].
  by rewrite Hdisk.
Qed.

Lemma addMetadata_content_witness :
  exists r, addMetadata "2025-01-01" python_files python_notes = Some r /\
    disk r !! "content/python/sets.md" = python_notes !! "content/python/sets.md" /\
    disk r !! "content/python/list-comprehensions.md" =
      Some (frontmatter "List Comprehensions" "2025-01-01" +:+ "# Lists" +:+ nl).
Proof.
  destruct (addMetadata "2025-01-01" python_files python_notes) as [r|] eqn:Hrun.
  - exists r. split; [reflexivity |]. split.
    + rewrite (addMetadata_content "2025-01-01" python_files python_notes r _ Hrun).
      vm_compute. reflexivity.
    + rewrite (addMetadata_content "2025-01-01" python_files python_notes r _ Hrun).
      vm_compute. reflexivity.
  - vm_compute in Hrun. discriminate Hrun.
Defined.

(** X3: the script is idempotent: run again on the files it left, on any day,
    it writes nothing, adds nothing and skips every file of the list. *)
Theorem addMetadata_idempotent (today today' : string) (files : list string)
    (d : gmap string string) (r : meta_state) :
  addMetadata today files d = Some r ->
  addMetadata today' files (disk r) =
    Some {| disk := disk r; addedCount := 0; skippedCount := length files |}.
Proof.
  intros Hrun. unfold addMetadata.
  rewrite processFiles_skips; [done |]. simpl. intros f Hf.
  destruct (processFiles_spec _ _ _ _ Hrun) as [_ Hdisk]. simpl in Hdisk.
  assert (Hread : is_Some (d !! f)).
  { apply (proj1 (processFiles_reads today files
                    {| disk := d; addedCount := 0; skippedCount := 0 |}));
      [by eexists | done]. }
  destruct Hread as [c Hc]. exists (stamped today f c).
  rewrite Hdisk, decide_True, Hc by done. split; [done |].
  apply hasFrontmatter_stamped.
Qed.

Lemma addMetadata_idempotent_witness :
  exists r, addMetadata "2025-01-01" python_files python_notes = Some r /\
    addMetadata "2025-01-02" python_files (disk r) =
      Some {| disk := disk r; addedCount := 0; skippedCount := 2 |}.
Proof.
  destruct (addMetadata "2025-01-01" python_files python_notes) as [r|] eqn:Hrun.
  - exists r. split; [reflexivity |].
    exact (addMetadata_idempotent "2025-01-01" "2025-01-02" python_files
             python_notes r Hrun).
  - vm_compute in Hrun. discriminate Hrun.
Defined.


(** ** Titles *)

Lemma capitalize_cons (prev : bool) (c : ascii) (t : string) :
  capitalize prev (String c t) =
  String (capChar prev c) (capitalize (isWord c) t).
Proof. reflexivity. Qed.

Lemma capChar_facts (prev : bool) (c : ascii) :
  isWord (capChar prev c) = isWord c /\
  capChar prev (capChar prev c) = capChar prev c /\
  Ascii.eqb (capChar prev c) "-" = Ascii.eqb c "-" /\
  isWord (if Ascii.eqb c "-" then " "%char else c) = isWord c /\
  capChar prev (if Ascii.eqb c "-" then " "%char else c) =
    (if Ascii.eqb c "-" then " "%char else capChar prev c).
Proof.
  destruct prev; destruct c as [[] [] [] [] [] [] [] []];
    repeat split; reflexivity.
Qed.

Lemma capitalize_length (prev : bool) (s : string) :
  String.length (capitalize prev s) = String.length s.
Proof.
  revert prev. induction s as [|c t IH]; intros prev; simpl; [done |].
  by rewrite IH.
Qed.

Lemma replaceAll_length (c d : ascii) (s : string) :
  String.length (replaceAll c d s) = String.length s.
Proof. induction s as [|a t IH]; simpl; [done | by rewrite IH]. Qed.

Lemma capitalize_idem (prev : bool) (s : string) :
  capitalize prev (capitalize prev s) = capitalize prev s.
Proof.
  revert prev. induction s as [|c t IH]; intros prev; [done |].
  rewrite !capitalize_cons.
  destruct (capChar_facts prev c) as (-> & -> & _). by rewrite IH.
Qed.

Lemma replaceAll_capitalize (prev : bool) (s : string) :
  replaceAll "-" " " (capitalize prev s) =
  capitalize prev (replaceAll "-" " " s).
Proof.
  revert prev. induction s as [|c t IH]; intros prev; [done |].
  rewrite capitalize_cons. simpl replaceAll. rewrite capitalize_cons.
  destruct (capChar_facts prev c) as (_ & _ & -> & -> & ->).
  by rewrite IH.
Qed.

Lemma replaceAll_idem (s : string) :
  replaceAll "-" " " (replaceAll "-" " " s) = replaceAll "-" " " s.
Proof.
  induction s as [|c t IH]; simpl; [done |]. rewrite IH. f_equal.
  by destruct (Ascii.eqb c "-") eqn:E; [| rewrite E].
Qed.

Lemma prefix_char (a c : ascii) (t : string) :
  String.prefix (String a EmptyString) (String c t) = Ascii.eqb c a.
Proof.
  unfold String.prefix. destruct (ascii_dec a c) as [-> | Hne].
  - rewrite Ascii.eqb_refl. by destruct t.
  - symmetry. apply Ascii.eqb_neq. congruence.
Qed.

Lemma capitalize_no_dash (prev : bool) (s : string) :
  includes s "-" = false -> includes (capitalize prev s) "-" = false.
Proof.
  revert prev. induction s as [|c t IH]; intros prev; [done |].
  rewrite capitalize_cons, !includes_cons, !(prefix_char "-").
  intros [Hc Ht]%orb_false_iff. rewrite (IH _ Ht), orb_false_r.
  destruct (capChar_facts prev c) as (_ & _ & -> & _). done.
Qed.

(** X5: the title made from a file name has the length of the name, holds no
    [-], and is left unchanged when titled again. *)
Theorem makeTitle_shape (fileName : string) :
  String.length (makeTitle fileName) = String.length fileName /\
  includes (makeTitle fileName) "-" = false /\
  makeTitle (makeTitle fileName) = makeTitle fileName.
Proof.
  unfold makeTitle. split; [| split].
  - by rewrite capitalize_length, replaceAll_length.
  - apply capitalize_no_dash, includes_replaceAll. done.
  - by rewrite replaceAll_capitalize, replaceAll_idem, capitalize_idem.
Qed.

(** ** More on the crawl *)

Lemma steps_visited_added (site : Site) (st st' : state) :
  rtc (step site) st st' ->
  (forall u, u ∈ visited st -> u ∈ added (log st)) ->
  forall u, u ∈ visited st' -> u ∈ added (log st').
Proof.
  induction 1 as [|s1 s2 s3 H12 _ IH]; [done |]. intros Hinv. apply IH.
  apply step_block in H12 as (v & d & n & Hlog & _ & Hn).
  intros u. rewrite Hlog. unfold added. rewrite omap_app, elem_of_app.
  destruct Hn as [[-> ->] | ([-> | ->] & _ & ->)]; simpl;
    rewrite ?elem_of_union, ?elem_of_singleton, ?list_elem_of_singleton;
    naive_solver.
Qed.

(** X6: when a crawl ends, with or without an exception, [visited] holds
    exactly the URLs the crawl navigated to. *)
Theorem visited_is_navigated (site : Site) (fuel : nat) (baseUrl : string)
    (depth : Z) :
  visited (crawl site fuel baseUrl depth).1 =
  list_to_set (navigated (log (crawl site fuel baseUrl depth).1)).
Proof.
  assert (Hinv : crawl_inv site (crawl site fuel baseUrl depth).1).
  { eapply crawl_inv_steps; [apply spider_steps | apply crawl_inv_init]. }
  destruct Hinv as (_ & _ & Hin & -> & _).
  apply set_eq. intros u. rewrite elem_of_list_to_set. split; [| apply Hin].
  apply (steps_visited_added site init); [apply spider_steps |].
  intros v Hv. simpl in Hv. set_solver.
Qed.

(** X7: with a depth that is not negative the crawl returns on every site,
    also one without end: [depth + 1] levels of nesting are enough and more
    fuel does not change the result. *)
Theorem crawl_returns_within_depth (site : Site) (fuel : nat)
    (baseUrl : string) (depth : Z) :
  (0 <= depth)%Z -> Z.to_nat depth < fuel ->
  (crawl site fuel baseUrl depth).2 <> OutOfFuel /\
  crawl site fuel baseUrl depth = crawl site (S (Z.to_nat depth)) baseUrl depth.
Proof.
  intros Hd Hfuel. split.
  - by apply spider_depth_fuel.
  - apply spider_fuel_mono; [lia |]. apply spider_depth_fuel; [done | lia].
Qed.

Lemma crawl_returns_within_depth_witness :
  (crawl endless_site 9 localhost 3).2 <> OutOfFuel /\
  crawl endless_site 9 localhost 3 = crawl endless_site 4 localhost 3.
Proof.
  apply (crawl_returns_within_depth endless_site 9 localhost 3); [lia |].
  vm_compute. lia.
Defined.

Lemma linked_from_app_l (site : Site) (e1 e2 : list event) (u : string) :
  linked_from site e1 u -> linked_from site (e1 ++ e2) u.
Proof.
  intros (p & h & Hp & Hrest). exists p, h. split; [| done].
  apply elem_of_app. by left.
Qed.

Lemma linked_from_app_r (site : Site) (e1 e2 : list event) (u : string) :
  linked_from site e2 u -> linked_from site (e1 ++ e2) u.
Proof.
  intros (p & h & Hp & Hrest). exists p, h. split; [| done].
  apply elem_of_app. by right.
Qed.

(** The calls a call makes are made for the links of pages it audits. *)
Lemma spider_calls_linked (site : Site) (fuel : nat) (url : string) (depth : Z)
    (st : state) :
  exists evs, log (spider site fuel url depth st).1 = log st ++ evs /\
    (evs = [] \/ exists rest, evs = Call url depth :: rest) /\
    forall u d, Call u d ∈ tail evs -> linked_from site evs u.
Proof.
  revert url depth st. induction fuel as [|fuel IH]; intros url depth st; simpl.
  { exists []. rewrite app_nil_r. split; [done |]. split; [by left |].
    by intros u d Hin%elem_of_nil. }
  assert (Hblock : forall n, 1 <= n -> exists evs,
            log st ++ block url depth n = log st ++ evs /\
            (evs = [] \/ exists rest, evs = Call url depth :: rest) /\
            forall u d, Call u d ∈ tail evs -> linked_from site evs u).
  { intros n Hn. exists (block url depth n). split; [done |]. split.
    - right. destruct n as [|n]; [lia |]. by eexists.
    - intros u d. destruct n as [|[|[|[|n]]]]; unfold block; simpl;
        rewrite ?take_nil, ?elem_of_cons, ?elem_of_nil; naive_solver. }
  destruct (bool_decide (url ∈ visited st)); simpl; [by apply (Hblock 1) |].
  case_bool_decide as Hd; simpl; [by apply (Hblock 1) |].
  destruct (cy_visit site url); simpl.
  2:{ rewrite <- !app_assoc. apply (Hblock 3). lia. }
  destruct (cy_checkA11y site url includedImpacts); simpl.
  2:{ rewrite <- !app_assoc. apply (Hblock 4). lia. }
  destruct (cy_get site url) as [anchors|] eqn:Hget.
  2:{ simpl. rewrite <- !app_assoc. apply (Hblock 4). lia. }
  pose proof (filter_hrefs_spec site ({[url]} ∪ visited st) anchors) as Hspec.
  destruct (filter_hrefs site ({[url]} ∪ visited st) anchors) as [e|kept].
  { simpl. rewrite <- !app_assoc. apply (Hblock 4). lia. }
  destruct Hspec as [_ Hkept].
  match goal with
  | |- context [each ?f ?hs ?s0] =>
    assert (Hloop : exists evs, log (each f hs s0).1 = log s0 ++ evs /\
              forall u d, Call u d ∈ evs ->
                (exists h, h ∈ static_hrefs site url /\ static_ok h = true /\
                           new_URL site h = Some u) \/
                linked_from site evs u);
      [apply (each_ind (fun s s' _ => exists evs, log s' = log s ++ evs /\
                forall u d, Call u d ∈ evs ->
                  (exists h, h ∈ static_hrefs site url /\ static_ok h = true /\
                             new_URL site h = Some u) \/
                  linked_from site evs u) f hs) |]
  end.
  - intros s. exists []. rewrite app_nil_r. split; [done |].
    by intros u d Hin%elem_of_nil.
  - intros s1 s2 s3 _ (e12 & H12 & Hl12) (e23 & H23 & Hl23).
    exists (e12 ++ e23). rewrite H23, H12, <- app_assoc. split; [done |].
    intros u d [Hin | Hin]%elem_of_app.
    + destruct (Hl12 u d Hin) as [? | ?]; [by left | right].
      by apply linked_from_app_l.
    + destruct (Hl23 u d Hin) as [? | ?]; [by left | right].
      by apply linked_from_app_r.
  - intros h s Hin.
    apply (proj1 (elem_of_JSSet_of _ _)) in Hin. rewrite Hkept in Hin.
    apply list_elem_of_filter in Hin as [_ Hin].
    assert (Hok : static_ok h = true).
    { apply (proj1 (elem_of_static_list _ _)) in Hin. by destruct Hin. }
    rewrite <- (static_hrefs_get site url anchors Hget) in Hin.
    destruct (new_URL site h) as [a|] eqn:Ha.
    + destruct (IH a (depth - 1)%Z s) as (evs & Hlog & Hhead & Hlinked).
      exists evs. split; [done |]. intros u d Hu.
      destruct Hhead as [-> | [rest ->]]; [by apply elem_of_nil in Hu |].
      apply elem_of_cons in Hu as [[= -> ->] | Hu].
      * left. by exists h.
      * right. by apply (Hlinked u d).
    + exists []. simpl. rewrite app_nil_r. split; [done |].
      by intros u d Hu%elem_of_nil.
  - destruct Hloop as (evs & Hlog & Hlinked).
    exists (block url depth 4 ++ evs). rewrite Hlog. simpl.
    rewrite <- !app_assoc. split; [done |]. split; [right; by eexists |].
    intros u d Hin. simpl in Hin.
    rewrite !elem_of_cons in Hin.
    destruct Hin as [? | [? | [? | Hin]]]; try done.
    destruct (Hlinked u d Hin) as [(h & Hh & Hok & Ha) | Hl].
    + exists url, h. split; [| done]. unfold block. simpl.
      rewrite !elem_of_cons. tauto.
    + by apply (linked_from_app_r site (block url depth 4)).
Qed.

(** X8: every URL passed to [spider] after the first call is what a link of an
    audited page resolves to, and that link passed the tests on its text: a
    link that starts with [#] or contains [logout] or [mailto:] is never
    followed. *)
Theorem calls_come_from_links (site : Site) (fuel : nat) (baseUrl : string)
    (depth : Z) (u : string) (d : Z) :
  Call u d ∈ tail (log (crawl site fuel baseUrl depth).1) ->
  exists p h,
    p ∈ audited (log (crawl site fuel baseUrl depth).1) /\
    h ∈ static_hrefs site p /\
    startsWith h "#" = false /\ includes h "logout" = false /\
    includes h "mailto:" = false /\
    new_URL site h = Some u.
Proof.
  unfold crawl.
  destruct (spider_calls_linked site fuel (baseUrl +:+ "/") depth init)
    as (evs & Hlog & _ & Hlinked).
  rewrite Hlog. simpl. intros Hin.
  destruct (Hlinked u d Hin) as (p & h & Hp & Hh & Hok & Ha).
  exists p, h. unfold static_ok in Hok.
  apply andb_true_iff in Hok as [[H1 H2]%andb_true_iff H3].
  apply negb_true_iff in H1, H2, H3.
  repeat split; try done.
  unfold audited. apply list_elem_of_omap. by exists (Audit p).
Qed.

Lemma calls_come_from_links_witness :
  exists p h,
    p ∈ audited (log (crawl cyclic_site 10 localhost 5).1) /\
    h ∈ static_hrefs cyclic_site p /\
    new_URL cyclic_site h = Some (localhost +:+ "/c").
Proof.
  destruct (calls_come_from_links cyclic_site 10 localhost 5
              (localhost +:+ "/c") 2)
    as (p & h & Hp & Hh & _ & _ & _ & Ha).
  - vm_compute. do 11 right. left.
  - exists p, h. split; [exact Hp |]. split; [exact Hh | exact Ha].
Defined.

(** X9: the link filter keeps, in document order, exactly the hrefs that are
    strings, pass the tests on their text and resolve to a URL outside
    [visited]; it throws exactly when some href that passes the tests on its
    text does not parse, whatever [visited] holds. *)
Theorem link_filter_result (site : Site) (vis : gset string)
    (anchors : list (option string)) :
  match filter_hrefs site vis anchors with
  | inl e =>
      exists h, e = InvalidURL h /\ Some h ∈ anchors /\ static_ok h = true /\
                new_URL site h = None
  | inr kept =>
      (forall h, Some h ∈ anchors -> static_ok h = true ->
                 is_Some (new_URL site h)) /\
      sublist kept (omap (fun a => a) anchors) /\
      forall h, h ∈ kept <->
        Some h ∈ anchors /\ static_ok h = true /\
        exists a, new_URL site h = Some a /\ a ∉ vis
  end.
Proof.
  pose proof (filter_hrefs_spec site vis anchors) as Hspec.
  destruct (filter_hrefs site vis anchors) as [e|kept].
  - destruct Hspec as (h & -> & [Hin Hok]%elem_of_static_list & Hnone).
    by exists h.
  - destruct Hspec as [Hparse ->]. split; [| split].
    + intros h Hin Hok. apply Hparse. by apply elem_of_static_list.
    + etrans; [apply sublist_filter |]. apply sublist_filter.
    + intros h. rewrite list_elem_of_filter, elem_of_static_list.
      unfold unvisited. destruct (new_URL site h) as [a|]; [| naive_solver].
      destruct (bool_decide (a ∈ vis)) eqn:Hb; simpl.
      * apply bool_decide_eq_true in Hb. naive_solver.
      * apply bool_decide_eq_false in Hb. naive_solver.
Qed.

Lemma spider_depths_nonneg (site : Site) (fuel : nat) (url : string)
    (depth : Z) (st : state) :
  (0 <= depth)%Z ->
  exists evs, log (spider site fuel url depth st).1 = log st ++ evs /\
    forall u d, Call u d ∈ evs -> (0 <= d)%Z.
Proof.
  revert url depth st. induction fuel as [|fuel IH]; intros url depth st Hd;
    simpl.
  { exists []. rewrite app_nil_r. split; [done |]. by intros u d Hin%elem_of_nil. }
  assert (Hblock : forall n, exists evs,
            log st ++ block url depth n = log st ++ evs /\
            forall u d, Call u d ∈ evs -> (0 <= d)%Z).
  { intros n. exists (block url depth n). split; [done |].
    intros u d. destruct n as [|[|[|[|n]]]]; unfold block; simpl;
      rewrite ?take_nil, ?elem_of_cons, ?elem_of_nil; naive_solver lia. }
  destruct (bool_decide (url ∈ visited st)); simpl; [apply (Hblock 1) |].
  case_bool_decide as Hd0; simpl; [apply (Hblock 1) |].
  destruct (cy_visit site url); simpl.
  2:{ rewrite <- !app_assoc. apply (Hblock 3). }
  destruct (cy_checkA11y site url includedImpacts); simpl.
  2:{ rewrite <- !app_assoc. apply (Hblock 4). }
  destruct (cy_get site url) as [anchors|].
  2:{ simpl. rewrite <- !app_assoc. apply (Hblock 4). }
  destruct (filter_hrefs _ _ anchors) as [e|kept].
  { simpl. rewrite <- !app_assoc. apply (Hblock 4). }
  match goal with
  | |- context [each ?f ?hs ?s0] =>
    assert (Hloop : exists evs, log (each f hs s0).1 = log s0 ++ evs /\
              forall u d, Call u d ∈ evs -> (0 <= d)%Z);
      [apply (each_ind (fun s s' _ => exists evs, log s' = log s ++ evs /\
                forall u d, Call u d ∈ evs -> (0 <= d)%Z) f hs) |]
  end.
  - intros s. exists []. rewrite app_nil_r. split; [done |].
    by intros u d Hin%elem_of_nil.
  - intros s1 s2 s3 _ (e12 & H12 & Hd12) (e23 & H23 & Hd23).
    exists (e12 ++ e23). rewrite H23, H12, <- app_assoc. split; [done |].
    intros u d [Hin | Hin]%elem_of_app; eauto.
  - intros h s _. destruct (new_URL site h) as [a|].
    + apply IH. lia.
    + exists []. simpl. rewrite app_nil_r. split; [done |].
      by intros u d Hin%elem_of_nil.
  - destruct Hloop as (evs & Hlog & Hdep).
    exists (block url depth 4 ++ evs). rewrite Hlog. simpl.
    rewrite <- !app_assoc. split; [done |].
    intros u d Hin. simpl in Hin. rewrite !elem_of_cons in Hin.
    destruct Hin as [Hin | [? | [? | [? | Hin]]]]; try done.
    + injection Hin as -> ->. lia.
    + by apply (Hdep u d).
Qed.

(** X10: started with a depth that is not negative, [spider] is only ever
    called with a depth between 0 and the initial depth. *)
Theorem call_depths_in_range (site : Site) (fuel : nat) (baseUrl : string)
    (depth : Z) (u : string) (d : Z) :
  (0 <= depth)%Z ->
  Call u d ∈ log (crawl site fuel baseUrl depth).1 ->
  (0 <= d <= depth)%Z.
Proof.
  intros Hd Hin. unfold crawl in Hin. split.
  - destruct (spider_depths_nonneg site fuel (baseUrl +:+ "/") depth init Hd)
      as (evs & Hlog & Hnn).
    rewrite Hlog in Hin. by apply (Hnn u d).
  - destruct (spider_call_depths site fuel (baseUrl +:+ "/") depth init)
      as (evs & Hlog & Hle).
    rewrite Hlog in Hin. by apply (Hle u d).
Qed.

Lemma call_depths_in_range_witness : (0 <= 4 <= 5)%Z.
Proof.
  apply (call_depths_in_range cyclic_site 10 localhost 5 (localhost +:+ "/a") 4).
  - lia.
  - vm_compute. do 4 right. left.
Defined.

(** ** More on reports *)

Lemma includes_join_elem (sep t x : string) (l : list string) :
  x ∈ l -> includes x t = true -> includes (join sep l) t = true.
Proof.
  intros Hin Hx. induction l as [|y l IH]; [by apply elem_of_nil in Hin |].
  apply elem_of_cons in Hin as [<- | Hin]; simpl.
  - destruct l; [done |]. by apply includes_append_l.
  - destruct l as [|z l]; [by apply elem_of_nil in Hin |].
    by apply includes_append_r, includes_append_r, IH.
Qed.

Lemma includes_mid (a b c : string) : includes (a +:+ b +:+ c) b = true.
Proof. apply includes_append_r, includes_append_l, includes_refl. Qed.

Lemma formatViolation_mentions (v : violation) :
  includes (formatViolation v) (v_id v) = true /\
  includes (formatViolation v) (impact v) = true /\
  includes (formatViolation v) (description v) = true /\
  includes (formatViolation v) (help v) = true /\
  includes (formatViolation v) (helpUrl v) = true /\
  forall n, n ∈ nodes v -> includes (formatViolation v) (html n) = true.
Proof.
  unfold formatViolation. repeat split.
  - do 2 apply includes_append_r. apply includes_append_l, includes_refl.
  - do 5 apply includes_append_r. apply includes_append_l, includes_refl.
  - do 9 apply includes_append_r. apply includes_append_l, includes_refl.
  - do 12 apply includes_append_r. apply includes_append_l, includes_refl.
  - do 14 apply includes_append_r. apply includes_append_l, includes_refl.
  - intros n Hn. do 19 apply includes_append_r. apply includes_append_l.
    apply (includes_join_elem nl _ (formatNode n)).
    + apply list_elem_of_fmap. by exists n.
    + unfold formatNode. apply includes_mid.
Qed.

(** X11: a report is the heading followed by [_No violations found._] exactly
    when the list of violations is empty. *)
Theorem sentinel_iff_empty (url : string) (violations : list violation) :
  formatViolationsToMarkdown url violations = header url +:+ sentinel <->
  violations = [].
Proof.
  split; [apply format_sentinel_only_when_empty |]. by intros ->.
Qed.

(** X12: every report starts with the heading of its page, and the report of
    a page mentions the rule id, the impact, the description, the help text
    and the help link of each of its violations and the HTML of each affected
    element: nothing of a violation is dropped. *)
Theorem report_mentions_every_violation (url : string)
    (violations : list violation) (v : violation) :
  v ∈ violations ->
  String.prefix (header url) (formatViolationsToMarkdown url violations) = true /\
  includes (formatViolationsToMarkdown url violations) (v_id v) = true /\
  includes (formatViolationsToMarkdown url violations) (impact v) = true /\
  includes (formatViolationsToMarkdown url violations) (description v) = true /\
  includes (formatViolationsToMarkdown url violations) (help v) = true /\
  includes (formatViolationsToMarkdown url violations) (helpUrl v) = true /\
  forall n, n ∈ nodes v ->
    includes (formatViolationsToMarkdown url violations) (html n) = true.
Proof.
  intros Hin.
  assert (Hne : bool_decide (length violations = 0) = false).
  { apply bool_decide_eq_false. destruct violations; [by apply elem_of_nil in Hin | done]. }
  unfold formatViolationsToMarkdown. rewrite Hne.
  assert (Hblock : forall t, includes (formatViolation v) t = true ->
            includes (header url +:+ join nl (map formatViolation violations)) t
            = true).
  { intros t Ht. apply includes_append_r.
    apply (includes_join_elem nl t (formatViolation v)); [| done].
    apply list_elem_of_fmap. by exists v. }
  destruct (formatViolation_mentions v) as (H1 & H2 & H3 & H4 & H5 & H6).
  split; [apply prefix_append |]. repeat split; auto.
Qed.

Lemma report_mentions_every_violation_witness :
  includes (formatViolationsToMarkdown "/contact" [contrast]) "color-contrast"
  = true.
Proof.
  destruct (report_mentions_every_violation "/contact" [contrast] contrast)
    as (_ & Hid & _).
  - left.
  - exact Hid.
Defined.

(** ** More on the report store *)

Lemma dropString_append (a b : string) :
  dropString (String.length a) (a +:+ b) = b.
Proof. induction a as [|x a IH]; [by destruct b | done]. Qed.

Lemma prefix_split (p s : string) :
  String.prefix p s = true -> s = p +:+ dropString (String.length p) s.
Proof.
  revert s. induction p as [|x p IH]; intros s; [by destruct s |].
  destruct s as [|y s]; [done |]. simpl.
  destruct (ascii_dec x y) as [-> | ?]; [| done].
  intros Hp. rewrite append_cons. f_equal. by apply IH.
Qed.

Lemma includes_char_append (a b : string) (c : ascii) :
  includes (a +:+ b) (String c EmptyString) =
  includes a (String c EmptyString) || includes b (String c EmptyString).
Proof.
  induction a as [|x a IH]; [done |].
  rewrite append_cons, !includes_cons, !prefix_char, IH.
  by rewrite orb_assoc.
Qed.

Lemma reportName_no_slash (url : string) : includes (reportName url) "/" = false.
Proof.
  unfold reportName. rewrite !includes_char_append.
  assert (includes (safeName url) "/" = false) as ->; [| done].
  unfold safeName. case_bool_decide; [done |].
  apply includes_stripLeading, includes_replaceAll. done.
Qed.

Lemma elem_of_writeFile (path content : string) (fs : files) :
  (path, content) ∈ writeFile path content fs.
Proof.
  induction fs as [|[p c] fs IH]; simpl; [by left |].
  case_bool_decide as Hp; [subst; by left | by right].
Qed.

Lemma writeFile_twice (path c1 c2 : string) (fs : files) :
  writeFile path c2 (writeFile path c1 fs) = writeFile path c2 fs.
Proof.
  induction fs as [|[p c] fs IH]; simpl.
  - by rewrite bool_decide_eq_true_2.
  - case_bool_decide as Hp; simpl.
    + by rewrite bool_decide_eq_true_2.
    + rewrite bool_decide_eq_false_2 by done. by rewrite IH.
Qed.

Lemma writeFile_paths (path content : string) (fs : files) :
  map fst (writeFile path content fs) =
  if bool_decide (path ∈ map fst fs) then map fst fs
  else map fst fs ++ [path].
Proof.
  induction fs as [|[p c] fs IH]; simpl; [done |].
  destruct (decide (p = path)) as [-> | Hp].
  - rewrite (bool_decide_eq_true_2 (path = path)) by done. simpl.
    rewrite bool_decide_eq_true_2; [done | by left].
  - rewrite (bool_decide_eq_false_2 (p = path)) by done. simpl.
    rewrite IH. destruct (decide (path ∈ map fst fs)) as [Hin | Hin].
    + rewrite !bool_decide_eq_true_2; [done | by right | done].
    + rewrite !bool_decide_eq_false_2; [done | | done].
      intros [? | ?]%elem_of_cons; congruence.
Qed.

Lemma readFileSync_writeFile_ne (dir file file' content : string) (fs : files) :
  file' <> file ->
  readFileSync dir file' (writeFile (dir +:+ "/" +:+ file) content fs) =
  readFileSync dir file' fs.
Proof.
  intros Hne. unfold readFileSync.
  assert (Hpath : dir +:+ "/" +:+ file <> dir +:+ "/" +:+ file').
  { intros H. apply append_inj_l in H. apply (append_inj_l "/") in H. congruence. }
  induction fs as [|[p c] fs IH]; simpl.
  - rewrite decide_False by done. done.
  - case_bool_decide as Hp; simpl.
    + subst. rewrite !decide_False by done. done.
    + destruct (decide (p = dir +:+ "/" +:+ file')); [done |].
      destruct (list_find _ (writeFile _ _ fs)) as [[i [p1 c1]]|];
        destruct (list_find _ fs) as [[j [p2 c2]]|]; simpl in *; congruence.
Qed.

Lemma readdirSync_elem (dir name content : string) (fs : files) :
  (dir +:+ "/" +:+ name, content) ∈ fs -> includes name "/" = false ->
  name ∈ readdirSync dir fs.
Proof.
  intros Hin Hslash. unfold readdirSync. apply list_elem_of_omap.
  exists (dir +:+ "/" +:+ name, content). split; [done |]. simpl.
  rewrite <- append_assoc, prefix_append, dropString_append, Hslash. done.
Qed.

Lemma readdirSync_readable (dir name : string) (fs : files) :
  name ∈ readdirSync dir fs -> is_Some (readFileSync dir name fs).
Proof.
  unfold readdirSync, readFileSync. rewrite list_elem_of_omap.
  intros ([p c] & Hin & Hname). simpl in Hname.
  destruct (String.prefix (dir +:+ "/") p) eqn:Hp; [| done].
  destruct (includes _ "/"); [done |]. simpl in Hname. injection Hname as <-.
  apply prefix_split in Hp. rewrite append_assoc in Hp.
  destruct (list_find_elem_of
              (fun pc : string * string =>
                 pc.1 = dir +:+ "/" +:+
                        dropString (String.length (dir +:+ "/")) p)
              fs (p, c) Hin) as [r Hr]; [done |].
  rewrite Hr. by eexists.
Qed.

(** X13: a saved report is found by the directory listing of the issue loop
    and read back as written, and saving it leaves every other report of the
    directory as it was. *)
Theorem saved_report_is_listed (url : string) (violations : list violation)
    (fs : files) (other : string) :
  other <> reportName url ->
  reportName url ∈ readdirSync reportsDir (saveReport url violations fs) /\
  readFileSync reportsDir (reportName url) (saveReport url violations fs) =
    Some (formatViolationsToMarkdown url violations) /\
  readFileSync reportsDir other (saveReport url violations fs) =
    readFileSync reportsDir other fs.
Proof.
  intros Hne. unfold saveReport.
  assert (Hpath : "reports/a11y-" +:+ safeName url +:+ ".md" =
                  reportsDir +:+ "/" +:+ reportName url) by reflexivity.
  rewrite Hpath. split; [| split].
  - eapply readdirSync_elem; [apply elem_of_writeFile | apply reportName_no_slash].
  - apply readFileSync_writeFile.
  - by apply readFileSync_writeFile_ne.
Qed.

Lemma saved_report_is_listed_witness :
  reportName "/contact" ∈ readdirSync reportsDir contact_reports.
Proof.
  destruct (saved_report_is_listed "/contact" [contrast] [] "a11y-home.md")
    as (Hin & _).
  - vm_compute. discriminate.
  - exact Hin.
Defined.

(** X14: saving the report of a page again replaces the earlier report: the
    directory is as if only the later report had been saved, and holds as many
    files as after the first save. *)
Theorem resave_overwrites (url : string) (v1 v2 : list violation) (fs : files) :
  saveReport url v2 (saveReport url v1 fs) = saveReport url v2 fs /\
  length (saveReport url v2 (saveReport url v1 fs)) =
    length (saveReport url v1 fs).
Proof.
  unfold saveReport. split; [apply writeFile_twice |].
  rewrite <- !(length_fmap fst), !writeFile_paths.
  repeat case_bool_decide; try done; exfalso.
  match goal with H : _ ∉ _ ++ _ |- _ => apply H end.
  apply elem_of_app. right. by left.
Qed.

Lemma replaceAll_twice (c d : ascii) (s : string) :
  c <> d -> replaceAll c d (replaceAll c d s) = replaceAll c d s.
Proof.
  intros Hcd. induction s as [|a s IH]; simpl; [done |]. rewrite IH. f_equal.
  destruct (Ascii.eqb a c) eqn:E; [| by rewrite E].
  destruct (Ascii.eqb d c) eqn:E'; [| done].
  apply Ascii.eqb_eq in E'. congruence.
Qed.

Lemma safeName_path (rest : string) :
  rest <> EmptyString ->
  safeName (String "/" rest) = replaceAll "/" "-" rest.
Proof.
  intros Hne. unfold safeName.
  rewrite bool_decide_eq_false_2 by (intros [= ?]; done). done.
Qed.

(** X15: the key of the report store does not tell a path from the same path
    with its inner [/] written as [-], nor [/home] from [/]: the two pages
    share one file, and the report saved later replaces the other. *)
Theorem slug_collision (rest : string) (v1 v2 : list violation) (fs : files) :
  rest <> EmptyString ->
  safeName (String "/" (replaceAll "/" "-" rest)) = safeName (String "/" rest) /\
  safeName "/home" = safeName "/" /\
  readFileSync reportsDir (reportName (String "/" rest))
    (saveReport (String "/" (replaceAll "/" "-" rest)) v2
       (saveReport (String "/" rest) v1 fs)) =
    Some (formatViolationsToMarkdown (String "/" (replaceAll "/" "-" rest)) v2).
Proof.
  intros Hne.
  assert (Hsame : safeName (String "/" (replaceAll "/" "-" rest)) =
                  safeName (String "/" rest)).
  { rewrite !safeName_path; [by apply replaceAll_twice | done |].
    by destruct rest. }
  split; [done |]. split; [reflexivity |].
  assert (Hname : reportName (String "/" rest) =
                  reportName (String "/" (replaceAll "/" "-" rest))).
  { unfold reportName. by rewrite Hsame. }
  rewrite Hname. unfold saveReport at 1.
  apply (readFileSync_writeFile reportsDir).
Qed.

Lemma slug_collision_witness :
  safeName "/about-team" = safeName "/about/team".
Proof.
  destruct (slug_collision "about/team" [] [] []) as (Hsame & _).
  - discriminate.
  - exact Hsame.
Defined.

(** ** More on issue filing *)

Lemma fileIssue_spec (gh : Tracker) (fs : files) (file : string)
    (st st' : tracker_state) :
  fileIssue gh fs file st = Some st' ->
  exists content out,
    readFileSync reportsDir file fs = Some content /\
    gh_issue_list gh (issueTitle file) (open_issues st) = Some out /\
    length (console_log st') = S (length (console_log st)) /\
    (open_issues st' = open_issues st /\
     (includes out (issueTitle file) = true \/
      gh_issue_create gh (issueTitle file) content (open_issues st) = false) \/
     includes out (issueTitle file) = false /\
     open_issues st' =
       open_issues st ++
       [{| title := issueTitle file; body := content;
           labels := ["accessibility"; "automated"] |}]).
Proof.
  unfold fileIssue. fold (issueTitle file).
  destruct (readFileSync reportsDir file fs) as [content|]; [| done].
  destruct (gh_issue_list gh (issueTitle file) (open_issues st)) as [out|];
    [| done].
  destruct (includes out (issueTitle file)) eqn:Hinc.
  { intros [= <-]. exists content, out. simpl. rewrite length_app. simpl.
    repeat split; [lia |]. left. split; [done | by left]. }
  destruct (gh_issue_create gh _ _ _) eqn:Hcreate.
  - intros [= <-]. exists content, out. simpl. rewrite length_app. simpl.
    repeat split; [lia |]. by right.
  - intros [= <-]. exists content, out. simpl. rewrite length_app. simpl.
    repeat split; [lia |]. left. split; [done | by right].
Qed.

Lemma fileIssue_runs (gh : Tracker) (fs : files) (file : string)
    (st : tracker_state) :
  (forall t open, is_Some (gh_issue_list gh t open)) ->
  file ∈ readdirSync reportsDir fs ->
  is_Some (fileIssue gh fs file st).
Proof.
  intros Hlist Hin. unfold fileIssue.
  destruct (readdirSync_readable _ _ _ Hin) as [content ->].
  destruct (Hlist ("Accessibility issues on /" +:+ replaceFirst ".md" "" file)
              (open_issues st)) as [out ->].
  destruct (includes out _); [by eexists |].
  destruct (gh_issue_create gh _ _ _); by eexists.
Qed.

(** X16: with a listing that shows every open issue carrying the searched
    title, a run of the issue loop never opens an issue under a title that is
    already open: the open titles stay pairwise distinct, whatever the report
    directory holds and whether or not creations fail. *)
Theorem issues_no_duplicates (gh : Tracker) (fs : files) (st : tracker_state) :
  search_finds gh ->
  NoDup (map title (open_issues st)) ->
  NoDup (map title (open_issues (fileIssues gh fs st).1)).
Proof. intros Hsearch Hnd. by apply forEachFile_no_duplicates. Qed.

Lemma issues_no_duplicates_witness :
  NoDup (map title (open_issues
    (fileIssues plain_tracker contact_reports
       (fileIssues plain_tracker contact_reports no_issues).1).1)).
Proof.
  apply (issues_no_duplicates plain_tracker contact_reports).
  - exact plain_tracker_finds.
  - apply (issues_no_duplicates plain_tracker contact_reports no_issues).
    + exact plain_tracker_finds.
    + constructor.
Defined.

Lemma forEachFile_runs (gh : Tracker) (fs : files) (names : list string)
    (st : tracker_state) :
  (forall t open, is_Some (gh_issue_list gh t open)) ->
  (forall file, file ∈ names -> file ∈ readdirSync reportsDir fs) ->
  (forEachFile gh fs names st).2 = true /\
  length (console_log (forEachFile gh fs names st).1) =
    length (console_log st) + length names.
Proof.
  intros Hlist. revert st. induction names as [|file tl IH]; intros st Hnames;
    simpl; [split; [done | lia] |].
  destruct (fileIssue_runs gh fs file st Hlist) as [st1 Hst1];
    [apply Hnames; by left |].
  rewrite Hst1. destruct (IH st1) as [Hrun Hlen].
  { intros f Hf. apply Hnames. by right. }
  split; [done |]. rewrite Hlen.
  destruct (fileIssue_spec _ _ _ _ _ Hst1) as (_ & _ & _ & _ & Hlog & _). lia.
Qed.





Lemma issueTitle_nonempty (file : string) : issueTitle file <> EmptyString.
Proof. unfold issueTitle. discriminate. Qed.

Lemma forEachFile_grows (gh : Tracker) (fs : files) (names : list string)
    (st : tracker_state) :
  exists new, open_issues (forEachFile gh fs names st).1 = open_issues st ++ new.
Proof.
  revert st. induction names as [|file tl IH]; intros st; simpl.
  { exists []. by rewrite app_nil_r. }
  destruct (fileIssue gh fs file st) as [st1|] eqn:Hst1.
  2:{ exists []. by rewrite app_nil_r. }
  destruct (IH st1) as (new & Hopen).
  destruct (fileIssue_spec _ _ _ _ _ Hst1)
    as (content & out & _ & _ & _ & [[Hsame _] | [_ Hadd]]).
  - exists new. by rewrite Hopen, Hsame.
  - eexists (_ :: new). by rewrite Hopen, Hadd, <- app_assoc.
Qed.

Lemma forEachFile_opens_all (gh : Tracker) (fs : files) (names : list string)
    (st : tracker_state) :
  search_exact gh ->
  (forall t b open, gh_issue_create gh t b open = true) ->
  (forEachFile gh fs names st).2 = true ->
  forall file, file ∈ names ->
    issueTitle file ∈ map title (open_issues (forEachFile gh fs names st).1).
Proof.
  intros Hexact Hcreate. revert st.
  induction names as [|file tl IH]; intros st Hrun f Hf;
    [by apply elem_of_nil in Hf |].
  simpl in *. destruct (fileIssue gh fs file st) as [st1|] eqn:Hst1; [| done].
  apply elem_of_cons in Hf as [-> | Hf]; [| by apply IH].
  destruct (forEachFile_grows gh fs tl st1) as (new & ->).
  rewrite map_app. apply elem_of_app. left.
  destruct (fileIssue_spec _ _ _ _ _ Hst1)
    as (content & out & _ & Hlist & _ & [[-> [Hinc | Hfail]] | [_ ->]]).
  - by apply (Hexact _ _ _ (issueTitle_nonempty file) Hlist).
  - by rewrite Hcreate in Hfail.
  - rewrite map_app. apply elem_of_app. right. by left.
Qed.

Lemma forEachFile_all_open (gh : Tracker) (fs : files) (names : list string)
    (st : tracker_state) :
  search_exact gh ->
  (forall file, file ∈ names -> issueTitle file ∈ map title (open_issues st)) ->
  open_issues (forEachFile gh fs names st).1 = open_issues st.
Proof.
  intros Hexact. revert st. induction names as [|file tl IH]; intros st Hopen;
    simpl; [done |].
  destruct (fileIssue gh fs file st) as [st1|] eqn:Hst1; [| done].
  destruct (fileIssue_spec _ _ _ _ _ Hst1)
    as (content & out & _ & Hlist & _ & [[Hsame _] | [Hinc _]]).
  - rewrite <- Hsame. apply IH. intros f Hf. rewrite Hsame. apply Hopen. by right.
  - assert (includes out (issueTitle file) = true); [| congruence].
    apply (Hexact _ _ _ (issueTitle_nonempty file) Hlist). apply Hopen. by left.
Qed.

Lemma exact_tracker_exact : search_exact exact_tracker.
Proof.
  intros t open out Hne [= <-]. case_bool_decide as Hin.
  - by rewrite includes_refl.
  - split; [| done]. destruct t; [done | discriminate].
Qed.

(** X19: with a listing that finds an open issue exactly by its title and
    does not fail, and creations that succeed, the issue loop is idempotent:
    a second run over the same reports opens no issue. *)
Theorem second_run_creates_nothing (gh : Tracker) (fs : files)
    (st : tracker_state) :
  search_exact gh ->
  (forall t open, is_Some (gh_issue_list gh t open)) ->
  (forall t b open, gh_issue_create gh t b open = true) ->
  open_issues (fileIssues gh fs (fileIssues gh fs st).1).1 =
  open_issues (fileIssues gh fs st).1.
Proof.
  intros Hexact Hlist Hcreate. unfold fileIssues.
  apply forEachFile_all_open; [done |].
  apply forEachFile_opens_all; [done | done |].
  by apply forEachFile_runs.
Qed.

Lemma second_run_creates_nothing_witness :
  open_issues
    (fileIssues exact_tracker contact_reports
       (fileIssues exact_tracker contact_reports no_issues).1).1 =
  open_issues (fileIssues exact_tracker contact_reports no_issues).1.
Proof.
  apply (second_run_creates_nothing exact_tracker contact_reports no_issues).
  - exact exact_tracker_exact.
  - intros t open. by eexists.
  - intros t b open. reflexivity.
Defined.

(** ** White space around front matter *)

Lemma trimEnd_cons (c : ascii) (t : string) :
  trimEnd (String c t) =
  match trimStart (String c t) with
  | EmptyString => EmptyString
  | String _ _ => String c (trimEnd t)
  end.
Proof. reflexivity. Qed.

Lemma trimEnd_prefix (s : string) : exists w, s = trimEnd s +:+ w.
Proof.
  induction s as [|c t [w IH]]; [by exists EmptyString |].
  rewrite trimEnd_cons. destruct (trimStart (String c t)).
  - by exists (String c t).
  - exists w. rewrite append_cons. by f_equal.
Qed.

Lemma prefix_of_append (p a w : string) :
  String.prefix p a = true -> String.prefix p (a +:+ w) = true.
Proof.
  intros Hp. rewrite (prefix_split p a Hp), append_assoc. apply prefix_append.
Qed.

Lemma startsWith_trimEnd_dashes (s : string) :
  startsWith (trimEnd s) "---" = startsWith s "---".
Proof.
  unfold startsWith. destruct (String.prefix "---" s) eqn:Hs.
  - apply prefix_split in Hs. rewrite Hs.
    change ("---" +:+ dropString (String.length "---") s)
      with (String "-" (String "-" (String "-" (dropString 3 s)))).
    rewrite !trimEnd_dash. apply (prefix_append "---").
  - destruct (String.prefix "---" (trimEnd s)) eqn:Ht; [| done].
    destruct (trimEnd_prefix s) as [w Hw].
    apply (prefix_of_append _ _ w) in Ht. rewrite <- Hw in Ht. congruence.
Qed.

(** X20: whether a file counts as having front matter depends only on what
    follows its leading white space: the text must go on with [---], and
    white space at the end of the file plays no part; so a file whose front
    matter comes after a blank first character is skipped like one that
    starts with it. *)
Theorem hasFrontmatter_leading_space (content : string) :
  hasFrontmatter content = startsWith (trimStart content) "---" /\
  forall c, ws1 c = true ->
    hasFrontmatter (String c content) = hasFrontmatter content.
Proof.
  assert (Heq : forall s, hasFrontmatter s = startsWith (trimStart s) "---").
  { intros s. unfold hasFrontmatter, trim. apply startsWith_trimEnd_dashes. }
  split; [apply Heq |]. intros c Hc. rewrite !Heq. simpl. by rewrite Hc.
Qed.
